(** * Video game sales dashboard: the filtering and aggregation engine

    A shallow embedding of [dashboard.py].  The script loads a CSV table with
    pandas, drops the rows that miss a year or a publisher, converts the year
    column to integers, filters the table by the sidebar selections and shows
    a total, a count and three grouped sums.

    The pandas calls are embedded by what they do to the table:
    - [dropna(subset=[...])] keeps the rows whose listed cells are present;
    - [astype(int)] converts the whole column or raises;
    - [isin], [>=], [<=] and [&] build a row mask, [df[mask]] keeps the rows
      where it holds, in their order;
    - [sum()] replaces missing cells by zero and adds the column the way
      numpy adds an array, in blocks;
    - [groupby(key)[col].sum()] has one entry per distinct present key, in
      ascending key order, holding the compensated (Kahan) sum of the
      present cells of the group;
    - [sort_values(ascending=False)] reorders a series by its values with the
      sorting algorithm of its [kind] argument, values that are NaN last.

    A table is a list of rows, in the order of the CSV file. *)

From Stdlib Require Import ZArith List String Ascii Bool Lia.
From Stdlib Require Import DecimalString.
From Stdlib Require DecimalNat.
From Stdlib Require Import Permutation Sorted.
From Stdlib Require Import PrimFloat.
From Stdlib Require FloatOps SpecFloat FloatAxioms.
Import ListNotations.

Set Warnings "-inexact-float".

Local Open Scope string_scope.
Local Open Scope Z_scope.

(** ** Numbers

    [Global_Sales] is a float64 column.  The engine adds and subtracts
    sales, compares sums and tests them for NaN, so it is written once over
    a carrier with these operations and read at two carriers: [float] (IEEE
    binary64, what the program runs on) and [Z] (exact amounts, in a fixed
    unit). *)

Class Number (V : Type) : Type := {
  num_zero : V;
  num_add : V -> V -> V;
  num_sub : V -> V -> V;
  num_leb : V -> V -> bool;
  num_isnan : V -> bool
}.

#[export] Instance float_Number : Number PrimFloat.float := {
  num_zero := PrimFloat.zero;
  num_add := PrimFloat.add;
  num_sub := PrimFloat.sub;
  num_leb := PrimFloat.leb;
  num_isnan := PrimFloat.is_nan
}.

#[export] Instance Z_Number : Number Z := {
  num_zero := 0;
  num_add := Z.add;
  num_sub := Z.sub;
  num_leb := Z.leb;
  num_isnan := fun _ => false
}.

(** The laws of exact addition.  They hold at [Z]; at [float] addition is
    commutative but rounds, so it is not associative. *)
Class ExactAdd (V : Type) `{Number V} : Prop := {
  num_add_assoc : forall a b c : V, num_add a (num_add b c) = num_add (num_add a b) c;
  num_add_comm : forall a b : V, num_add a b = num_add b a;
  num_add_zero_r : forall a : V, num_add a num_zero = a
}.

(** Exact subtraction undoes an addition.  This holds at [Z]; at [float]
    the difference is the rounding error that a compensated sum keeps. *)
Class ExactSub (V : Type) `{Number V} : Prop := {
  num_sub_add : forall a b : V, num_sub (num_add a b) a = b
}.

(** The laws of a total preorder on the values that are not NaN, for
    sorting by value.  They hold at [Z] and at [float]. *)
Class TotalLeb (V : Type) `{Number V} : Prop := {
  num_leb_total : forall a b : V,
    num_isnan a = false -> num_isnan b = false ->
    num_leb a b = true \/ num_leb b a = true;
  num_leb_trans : forall a b c : V,
    num_leb a b = true -> num_leb b c = true -> num_leb a c = true
}.

(** ** The table

    The columns the script reads, and the title column [Name].  A text cell
    or a sales cell that is missing in the file is [None] (pandas stores
    NaN); a present sales cell holds a number.  The year
    column is read as floats when every present cell is a number (a missing
    one is the float NaN), as integers when no cell is missing, and as text
    when some cell is not a number. *)

Inductive YearCell : Type :=
| YFloat (f : PrimFloat.float)
| YInt (z : Z)
| YStr (s : string).

Record Row (Y V : Type) : Type := mkRow {
  Name : option string;
  Platform : option string;
  Year : Y;
  Genre : option string;
  Publisher : option string;
  Global_Sales : option V
}.

Arguments mkRow {Y V}.
Arguments Name {Y V}.
Arguments Platform {Y V}.
Arguments Year {Y V}.
Arguments Genre {Y V}.
Arguments Publisher {Y V}.
Arguments Global_Sales {Y V}.

(** A table as [read_csv] returns it, and after [load_data]. *)
Definition RawTable (V : Type) : Type := list (Row YearCell V).
Definition Table (V : Type) : Type := list (Row Z V).

(** ** Errors *)

Inductive PyError : Type :=
| ValueError          (* int() of a text that is not an integer literal *)
| OverflowError       (* an integer that does not fit int64 *)
| IntCastingNaNError. (* a NaN or infinite float converted to an integer *)

Inductive Result (A : Type) : Type :=
| Ok (a : A)
| Raise (e : PyError).

Arguments Ok {A}.
Arguments Raise {A}.

Definition bind {A B : Type} (r : Result A) (k : A -> Result B) : Result B :=
  match r with
  | Ok a => k a
  | Raise e => Raise e
  end.

Notation "x <- r ;; k" := (bind r (fun x => k))
  (at level 61, r at next level, right associativity).

(** ** Converting the year column: [df['Year'].astype(int)] *)

Definition int64_min : Z := - 2 ^ 63.
Definition int64_max : Z := 2 ^ 63 - 1.

Definition fits_int64 (z : Z) : bool := (int64_min <=? z) && (z <=? int64_max).

(** The integer part of a finite float, rounded toward zero. *)
Definition trunc_float (f : PrimFloat.float) : Z :=
  match FloatOps.Prim2SF f with
  | SpecFloat.S754_finite s m e =>
      let a := Z.shiftl (Zpos m) e in if s then - a else a
  | _ => 0
  end.

(** numpy's float64 to int64 cast: truncation; a value outside int64 gives
    the smallest int64 (the x86-64 conversion instruction's result). *)
Definition float_to_int64 (f : PrimFloat.float) : Z :=
  let t := trunc_float f in if fits_int64 t then t else int64_min.

(** Python's [int(text)] in base ten, on ASCII text: surrounding white space
    is ignored, then an optional sign, then digits, where single underscores
    may separate digits. *)
Definition is_space (c : ascii) : bool :=
  let n := N_of_ascii c in
  ((9 <=? n) && (n <=? 13) || (28 <=? n) && (n <=? 32))%N.

Fixpoint lstrip (l : list ascii) : list ascii :=
  match l with
  | c :: r => if is_space c then lstrip r else l
  | [] => []
  end.

Definition strip (l : list ascii) : list ascii := rev (lstrip (rev (lstrip l))).

Definition digit_of (c : ascii) : option Z :=
  let n := N_of_ascii c in
  if ((48 <=? n) && (n <=? 57))%N then Some (Z.of_N (n - 48)) else None.

Fixpoint digits (acc : Z) (l : list ascii) : option Z :=
  match l with
  | [] => Some acc
  | c :: r =>
      match digit_of c with
      | Some d => digits (10 * acc + d) r
      | None =>
          if Ascii.eqb c "_"%char then
            match r with
            | c' :: r' =>
                match digit_of c' with
                | Some d => digits (10 * acc + d) r'
                | None => None
                end
            | [] => None
            end
          else None
      end
  end.

Definition literal (l : list ascii) : option Z :=
  match l with
  | c :: r => match digit_of c with Some d => digits d r | None => None end
  | [] => None
  end.

Definition py_int (s : string) : option Z :=
  match strip (list_ascii_of_string s) with
  | "+"%char :: r => literal r
  | "-"%char :: r => option_map Z.opp (literal r)
  | l => literal l
  end.

(** An integer column is int64, or uint64 when a value needs it; the cast
    of uint64 to int64 wraps around. *)
Definition wrap_int64 (z : Z) : Z := (z + 2 ^ 63) mod 2 ^ 64 - 2 ^ 63.

(** One cell of the column. *)
Definition astype_int (c : YearCell) : Result Z :=
  match c with
  | YFloat f =>
      if PrimFloat.is_finite f then Ok (float_to_int64 f)
      else Raise IntCastingNaNError
  | YInt z => Ok (wrap_int64 z)
  | YStr s =>
      match py_int s with
      | Some z => if fits_int64 z then Ok z else Raise OverflowError
      | None => Raise ValueError
      end
  end.

Section Loading.
Context {V : Type}.

Definition with_year (r : Row YearCell V) (y : Z) : Row Z V :=
  mkRow (Name r) (Platform r) y (Genre r) (Publisher r) (Global_Sales r).

(** The whole column is converted, or the conversion raises. *)
Fixpoint astype_int_column (df : RawTable V) : Result (Table V) :=
  match df with
  | [] => Ok []
  | r :: rest =>
      y <- astype_int (Year r) ;;
      t <- astype_int_column rest ;;
      Ok (with_year r y :: t)
  end.

(** [isna] on a year cell and on a text cell. *)
Definition isna_year (c : YearCell) : bool :=
  match c with
  | YFloat f => PrimFloat.is_nan f
  | YInt _ | YStr _ => false
  end.

Definition isna {A : Type} (c : option A) : bool :=
  match c with
  | Some _ => false
  | None => true
  end.

(** [df.dropna(subset=['Year', 'Publisher'], inplace=True)] *)
Definition dropna (df : RawTable V) : RawTable V :=
  filter (fun r => negb (isna_year (Year r)) && negb (isna (Publisher r))) df.

(** [load_data], on the table that [pd.read_csv(url)] returned. *)
Definition load_data (csv : RawTable V) : Result (Table V) :=
  astype_int_column (dropna csv).

(** The script's [try: df = load_data(...) except Exception: st.error(...);
    st.stop()]: a failure to read or to clean stops the app. *)
Inductive Loaded : Type :=
| Stopped (e : PyError)
| Running (df : Table V).

Definition load_or_stop (fetched : Result (RawTable V)) : Loaded :=
  match csv <- fetched ;; load_data csv with
  | Ok df => Running df
  | Raise e => Stopped e
  end.
End Loading.

(** ** Filtering

    A selection holds texts, as the options of the sidebar do whenever some
    row has a genre and a platform.  (On a table whose genre cells are all
    missing the one option is NaN; a view that keeps rows without a genre
    is no [filtered_df] of a [Criteria], and the statements that must cover
    it are made for every table.) *)

Record Criteria : Type := mkCriteria {
  selected_genres : list string;
  selected_platforms : list string;
  selected_year_range : Z * Z
}.

(** [Series.isin(values)] on a text column: a missing cell is in no list of
    texts. *)
Definition isin (c : option string) (values : list string) : bool :=
  match c with
  | Some s => existsb (String.eqb s) values
  | None => false
  end.


Section Engine.
Context {V : Type} `{Number V}.

(** The row mask of lines 61 to 64. *)
Definition mask (C : Criteria) (r : Row Z V) : bool :=
  isin (Genre r) (selected_genres C)
  && isin (Platform r) (selected_platforms C)
  && (fst (selected_year_range C) <=? Year r)
  && (Year r <=? snd (selected_year_range C)).

Definition filtered_df (df : Table V) (C : Criteria) : Table V :=
  filter (mask C) df.

(** ** Metrics *)

(** [Series.sum()] with [skipna]: a missing cell is replaced by zero, and
    the column goes to numpy's [sum]. *)
Definition fillna (c : option V) : V :=
  match c with
  | Some v => v
  | None => num_zero
  end.

(** numpy adds a float64 array in blocks (its pairwise summation).  Eight
    running sums take the numbers in turn, the number at index [i] going to
    sum [i mod 8], while eight more numbers are left; the eight sums are
    then added as a tree, and the numbers left over one after the other. *)
Fixpoint unrolled (r0 r1 r2 r3 r4 r5 r6 r7 : V) (a : list V) : V :=
  match a with
  | a0 :: a1 :: a2 :: a3 :: a4 :: a5 :: a6 :: a7 :: rest =>
      unrolled (num_add r0 a0) (num_add r1 a1) (num_add r2 a2) (num_add r3 a3)
        (num_add r4 a4) (num_add r5 a5) (num_add r6 a6) (num_add r7 a7) rest
  | _ =>
      fold_left num_add a
        (num_add (num_add (num_add r0 r1) (num_add r2 r3))
                 (num_add (num_add r4 r5) (num_add r6 r7)))
  end.

(** Up to 128 numbers: fewer than 8 are added one after the other from
    zero (newer versions of numpy start from negative zero, which shows
    only in the sign of a sum that is zero), the others through the eight
    running sums. *)
Definition block_sum (a : list V) : V :=
  match a with
  | a0 :: a1 :: a2 :: a3 :: a4 :: a5 :: a6 :: a7 :: rest =>
      unrolled a0 a1 a2 a3 a4 a5 a6 a7 rest
  | _ => fold_left num_add a num_zero
  end.

(** More than 128 numbers: the array is cut in two at a multiple of 8 near
    its middle and the sums of the two parts are added.  The parts are
    shorter than the array, so [fuel] as large as the length is enough. *)
Fixpoint pairwise_sum (fuel : nat) (a : list V) : V :=
  match fuel with
  | O => block_sum a
  | S fuel' =>
      if (List.length a <=? 128)%nat then block_sum a
      else
        let half := (List.length a / 2)%nat in
        let n2 := (half - half mod 8)%nat in
        num_add (pairwise_sum fuel' (firstn n2 a)) (pairwise_sum fuel' (skipn n2 a))
  end.

(** [numpy.sum]: the result starts as zero; the sum of the array, when
    there is one, is added to it. *)
Definition np_sum (a : list V) : V :=
  match a with
  | [] => num_zero
  | _ :: _ => num_add num_zero (pairwise_sum (List.length a) a)
  end.

Definition nansum (cells : list (option V)) : V := np_sum (map fillna cells).

Definition total_sales (view : Table V) : V := nansum (map Global_Sales view).

Definition num_games (view : Table V) : nat := List.length view.

(** ** Grouped sums

    [groupby(key)['Global_Sales'].sum()]: rows with a missing key belong to
    no group; the groups come in ascending key order; a group's sum skips
    missing cells and is a compensated (Kahan) sum: next to the running sum
    pandas keeps the rounding error of the additions made so far and takes
    it off the next number.  A compensation that comes out as NaN (after an
    infinite number) is reset to zero. *)

Definition kahan_add (acc : V * V) (val : V) : V * V :=
  let '(sumx, compensation) := acc in
  let y := num_sub val compensation in
  let t := num_add sumx y in
  let c := num_sub (num_sub t sumx) y in
  (t, if num_isnan c then num_zero else c).

Definition bump (acc : V * V) (c : option V) : V * V :=
  match c with
  | Some val => kahan_add acc val
  | None => acc
  end.

Section GroupBy.
Context {K : Type} (cmp : K -> K -> comparison).

(** The running sum and compensation of each group met so far. *)
Fixpoint upsert (k : K) (c : option V) (acc : list (K * (V * V)))
  : list (K * (V * V)) :=
  match acc with
  | [] => [(k, bump (num_zero, num_zero) c)]
  | (k', s) :: rest =>
      match cmp k k' with
      | Lt => (k, bump (num_zero, num_zero) c) :: acc
      | Eq => (k', bump s c) :: rest
      | Gt => (k', s) :: upsert k c rest
      end
  end.

Definition group_states (key : Row Z V -> option K) (view : Table V)
  : list (K * (V * V)) :=
  fold_left
    (fun acc r =>
       match key r with
       | Some k => upsert k (Global_Sales r) acc
       | None => acc
       end)
    view [].

Definition groupby_sum (key : Row Z V -> option K) (view : Table V)
  : list (K * V) :=
  map (fun e => (fst e, fst (snd e))) (group_states key view).
End GroupBy.

(** [Series.sort_values(ascending=False)].  pandas sets the entries whose
    value is NaN aside, reverses the others, sorts them in ascending order
    of value with numpy's sort of the given [kind], reverses the result and
    puts the NaN entries behind it.  The script passes no [kind]; the
    default is quicksort, and pandas documents mergesort and stable as the
    only stable kinds.  The sort is a parameter here; the statements below
    say what they need of it ([Permutes], [SortsAscending]). *)
Definition SortKind (K : Type) : Type := list (K * V) -> list (K * V).

Definition value_isna {K : Type} (e : K * V) : bool := num_isnan (snd e).

Definition value_notna {K : Type} (e : K * V) : bool := negb (num_isnan (snd e)).

Definition sort_values_desc {K : Type} (kind : SortKind K) (s : list (K * V))
  : list (K * V) :=
  (rev (kind (rev (filter value_notna s))) ++ filter value_isna s)%list.

Definition sales_over_time (view : Table V) : list (Z * V) :=
  groupby_sum Z.compare (fun r => Some (Year r)) view.

Definition sales_by_genre (kind : SortKind string) (view : Table V)
  : list (string * V) :=
  sort_values_desc kind (groupby_sum String.compare Genre view).

Definition sales_by_platform (kind : SortKind string) (view : Table V)
  : list (string * V) :=
  sort_values_desc kind (groupby_sum String.compare Platform view).

(** ** The page

    The charts are drawn only [if not filtered_df.empty]; otherwise the
    page shows a warning in their place. *)
Inductive Charts : Type :=
| NoDataWarning
| Drawn (over_time : list (Z * V)) (by_genre by_platform : list (string * V)).

Record Page : Type := mkPage {
  metric_total : V;
  metric_count : nat;
  charts : Charts;
  shown_table : Table V
}.

Definition page (kind : SortKind string) (df : Table V) (C : Criteria) : Page :=
  let view := filtered_df df C in
  mkPage (total_sales view) (num_games view)
    (match view with
     | [] => NoDataWarning
     | _ :: _ =>
         Drawn (sales_over_time view) (sales_by_genre kind view)
           (sales_by_platform kind view)
     end)
    view.

(** ** Sorting algorithms

    Insertion sort by value.  [before x y] decides whether the element being
    inserted goes in front of [y]. *)
Section Sorts.
Context {K : Type} (before : V -> V -> bool).

Fixpoint insert_by (x : K * V) (l : list (K * V)) : list (K * V) :=
  match l with
  | [] => [x]
  | y :: r => if before (snd x) (snd y) then x :: l else y :: insert_by x r
  end.

Definition insertion_sort_by (l : list (K * V)) : list (K * V) :=
  fold_right insert_by [] l.
End Sorts.

(** A stable sort: an element stays behind the equal ones that precede
    it. *)
Definition stable_sort {K : Type} : SortKind K :=
  insertion_sort_by (fun x y => num_leb x y).

(** *** numpy's quicksort

    The sort of kind quicksort as numpy's generic code does it, on the
    entries in place of their indices.  (For some processors numpy has
    vectorised sorts, which order equal values in yet other ways.)  A
    range of more than 17 entries is partitioned around the median of its
    first, middle and last entry; the larger part waits on a stack, the
    smaller one is partitioned further; a range of up to 17 entries is
    sorted by insertion; a range taken from the stack after more than
    [2 * log2 n] partitions is sorted by heapsort.  The values are
    compared by [<]; no NaN reaches the sort. *)
Section Quicksort.
Context {K : Type}.
Implicit Types (a : list (K * V)) (x y : K * V).

Definition less x y : bool := negb (num_leb (snd y) (snd x)).

Fixpoint set_nth a (i : nat) x : list (K * V) :=
  match a, i with
  | [], _ => []
  | _ :: r, O => x :: r
  | y :: r, S i' => y :: set_nth r i' x
  end.

Definition swap a (i j : nat) : list (K * V) :=
  match nth_error a i, nth_error a j with
  | Some x, Some y => set_nth (set_nth a i y) j x
  | _, _ => a
  end.

Definition less_at a (i j : nat) : bool :=
  match nth_error a i, nth_error a j with
  | Some x, Some y => less x y
  | _, _ => false
  end.

Definition swap_if_less a (i j : nat) : list (K * V) :=
  if less_at a i j then swap a i j else a.

(** [do ++pi; while (v[*pi] < vp)], from the incremented position. *)
Fixpoint scan_up (fuel : nat) a (vp : K * V) (i : nat) : nat :=
  match fuel with
  | O => i
  | S fuel' =>
      match nth_error a i with
      | Some x => if less x vp then scan_up fuel' a vp (S i) else i
      | None => i
      end
  end.

(** [do --pj; while (vp < v[*pj])], from the decremented position. *)
Fixpoint scan_down a (vp : K * V) (j : nat) : nat :=
  match nth_error a j with
  | Some x =>
      if less vp x then
        match j with
        | O => O
        | S j' => scan_down a vp j'
        end
      else j
  | None => j
  end.

Fixpoint exchange (fuel : nat) a (vp : K * V) (pi pj : nat)
  : list (K * V) * nat :=
  match fuel with
  | O => (a, pi)
  | S fuel' =>
      let pi' := scan_up (List.length a) a vp (S pi) in
      let pj' := scan_down a vp (pj - 1) in
      if (pj' <=? pi')%nat then (a, pi')
      else exchange fuel' (swap a pi' pj') vp pi' pj'
  end.

(** The partition of the range from [pl] to [pr]; the pivot ends at the
    returned position. *)
Definition partition a (pl pr : nat) : list (K * V) * nat :=
  let pm := (pl + (pr - pl) / 2)%nat in
  let a := swap_if_less a pm pl in
  let a := swap_if_less a pr pm in
  let a := swap_if_less a pm pl in
  match nth_error a pm with
  | Some vp =>
      let a := swap a pm (pr - 1) in
      let '(a, pi) := exchange (List.length a) a vp pl (pr - 1) in
      (swap a pi (pr - 1), pi)
  | None => (a, pl)
  end.

(** Insertion into the sorted entries in front, last one first: the entry
    moves up while it is less than the one before it. *)
Fixpoint shift_in x (sorted : list (K * V)) : list (K * V) :=
  match sorted with
  | y :: r => if less x y then y :: shift_in x r else x :: sorted
  | [] => [x]
  end.

Definition insertion_sort a : list (K * V) :=
  rev (fold_left (fun sorted x => shift_in x sorted) a []).

(** Heapsort, positions counted from 1. *)
Definition get1 a (i : nat) : option (K * V) := nth_error a (i - 1).

Definition set1 a (i : nat) x : list (K * V) := set_nth a (i - 1) x.

Fixpoint sift (fuel : nat) a (tmp : K * V) (i j n : nat) : list (K * V) :=
  match fuel with
  | O => set1 a i tmp
  | S fuel' =>
      if (j <=? n)%nat then
        let j :=
          if (j <? n)%nat then
            match get1 a j, get1 a (j + 1) with
            | Some x, Some y => if less x y then (j + 1)%nat else j
            | _, _ => j
            end
          else j in
        match get1 a j with
        | Some y =>
            if less tmp y then sift fuel' (set1 a i y) tmp j (j + j) n
            else set1 a i tmp
        | None => set1 a i tmp
        end
      else set1 a i tmp
  end.

Fixpoint heapify (l : nat) a (n : nat) : list (K * V) :=
  match l with
  | O => a
  | S l' =>
      match get1 a l with
      | Some tmp => heapify l' (sift n a tmp l (l + l) n) n
      | None => a
      end
  end.

Fixpoint sort_down (n : nat) a : list (K * V) :=
  match n with
  | S (S _ as n') =>
      match get1 a n, get1 a 1 with
      | Some tmp, Some top => sort_down n' (sift n (set1 a n top) tmp 1 2 n')
      | _, _ => a
      end
  | _ => a
  end.

Definition heapsort a : list (K * V) :=
  let n := List.length a in sort_down n (heapify (n / 2) a n).

(** A sort applied to the range from [pl] to [pr]. *)
Definition on_range (sort : list (K * V) -> list (K * V)) a (pl pr : nat)
  : list (K * V) :=
  (firstn pl a ++ sort (firstn (pr + 1 - pl) (skipn pl a)) ++ skipn (pr + 1) a)%list.

(** [popped] tells a range taken from the stack, for which the number of
    partitions left is checked, from one that is being partitioned
    further. *)
Fixpoint sort_range (fuel : nat) (popped : bool) a (pl pr : nat) (cdepth : Z)
  : list (K * V) :=
  match fuel with
  | O => a
  | S fuel' =>
      if popped && (cdepth <? 0) then on_range heapsort a pl pr
      else if (16 <? pr - pl)%nat then
        let '(a, pi) := partition a pl pr in
        let cdepth := cdepth - 1 in
        if (pi - pl <? pr - pi)%nat then
          let a := sort_range fuel' false a pl (pi - 1) cdepth in
          sort_range fuel' true a (pi + 1) pr cdepth
        else
          let a := sort_range fuel' false a (pi + 1) pr cdepth in
          sort_range fuel' true a pl (pi - 1) cdepth
      else on_range insertion_sort a pl pr
  end.

Definition quicksort : SortKind K :=
  fun a =>
    match a with
    | [] => []
    | _ :: _ =>
        sort_range (List.length a) true a 0 (List.length a - 1)
          (2 * Z.log2 (Z.of_nat (List.length a)))
    end.
End Quicksort.
End Engine.

Arguments SortKind : clear implicits.

(** ** Notions used in the statements *)

(** [Subsequence s l]: [s] is [l] with some elements removed, the others in
    their order. *)
Inductive Subsequence {A : Type} : list A -> list A -> Prop :=
| sub_nil : Subsequence [] []
| sub_keep : forall x s l, Subsequence s l -> Subsequence (x :: s) (x :: l)
| sub_drop : forall x s l, Subsequence s l -> Subsequence s (x :: l).

(** A cleaned row: the raw row with its year converted, nothing else
    changed. *)
Definition cleaned {V : Type} (r : Row YearCell V) (c : Row Z V) : Prop :=
  astype_int (Year r) = Ok (Year c) /\ c = with_year r (Year c).

(** The three predicates of a selection. *)
Definition genre_selected {Y V : Type} (C : Criteria) (r : Row Y V) : Prop :=
  exists g, Genre r = Some g /\ In g (selected_genres C).

Definition platform_selected {Y V : Type} (C : Criteria) (r : Row Y V) : Prop :=
  exists p, Platform r = Some p /\ In p (selected_platforms C).

Definition year_selected {V : Type} (C : Criteria) (r : Row Z V) : Prop :=
  fst (selected_year_range C) <= Year r <= snd (selected_year_range C).

(** What the engine needs of the order on keys. *)
Class KeyOrder {K : Type} (cmp : K -> K -> comparison) : Prop := {
  cmp_eq : forall a b : K, cmp a b = Eq <-> a = b;
  cmp_antisym : forall a b : K, cmp a b = CompOpp (cmp b a);
  cmp_trans : forall a b c : K, cmp a b = Lt -> cmp b c = Lt -> cmp a c = Lt
}.

Section Notions.
Context {V : Type} `{Number V}.

(** The sales of the rows that have a sales cell, in row order. *)
Fixpoint sales_of (view : Table V) : list V :=
  match view with
  | [] => []
  | r :: rest =>
      match Global_Sales r with
      | Some v => v :: sales_of rest
      | None => sales_of rest
      end
  end.

(** The rows of a year, and the rows whose genre (or platform) is a given
    text. *)
Definition rows_of_year (y : Z) (view : Table V) : Table V :=
  filter (fun r => Year r =? y) view.


(** The rows that have a key, and those that have none. *)
Definition has_key {A : Type} (key : Row Z V -> option A) (r : Row Z V) : bool :=
  match key r with
  | Some _ => true
  | None => false
  end.

(** The sum of a list of numbers as Python's [sum] takes it: from zero,
    one number after the other. *)
Fixpoint sum_from (start : V) (vs : list V) : V :=
  match vs with
  | [] => start
  | v :: rest => sum_from (num_add start v) rest
  end.

Definition py_sum (vs : list V) : V := sum_from num_zero vs.

(** Kahan's compensated sum of a list of numbers: [s] is the running sum,
    [e] the error of the additions so far. *)
Fixpoint compensated_from (s e : V) (vs : list V) : V :=
  match vs with
  | [] => s
  | v :: rest =>
      let y := num_sub v e in
      let t := num_add s y in
      let e' := num_sub (num_sub t s) y in
      compensated_from t (if num_isnan e' then num_zero else e') rest
  end.

Definition compensated_sum (vs : list V) : V :=
  compensated_from num_zero num_zero vs.

(** The sum of the values of a mapping, in its order. *)
Definition sum_values {K : Type} (m : list (K * V)) : V :=
  fold_left num_add (map snd m) num_zero.

(** A sort by value: the output has the elements of the input, in
    ascending order of value.  Nothing is said of equal values, and
    nothing of lists that hold a NaN, which are not sorted. *)
Definition ascending {K : Type} (a b : K * V) : Prop :=
  num_leb (snd a) (snd b) = true.

Definition descending {K : Type} (a b : K * V) : Prop :=
  num_leb (snd b) (snd a) = true.

Definition Permutes {K : Type} (kind : SortKind V K) : Prop :=
  forall l, Permutation (kind l) l.



(** Two entries tie when their values compare equal. *)
Definition tie {K : Type} (a b : K * V) : Prop :=
  num_leb (snd a) (snd b) = true /\ num_leb (snd b) (snd a) = true.

(** The total and the count, taken in one pass over the whole table. *)
Definition sum_where (p : Row Z V -> bool) (df : Table V) : V :=
  fold_left
    (fun acc r =>
       if p r then
         match Global_Sales r with
         | Some v => num_add acc v
         | None => acc
         end
       else acc)
    df num_zero.

Definition count_where (p : Row Z V -> bool) (df : Table V) : nat :=
  fold_left (fun n r => if p r then S n else n) df O.
End Notions.

Section Keyed.
Context {K : Type} (cmp : K -> K -> comparison).

Definition is_Eq (c : comparison) : bool :=
  match c with
  | Eq => true
  | _ => false
  end.

(** The rows of the group of key [k]. *)
Definition in_group {V : Type} (key : Row Z V -> option K) (k : K) (r : Row Z V)
  : bool :=
  match key r with
  | Some k' => is_Eq (cmp k' k)
  | None => false
  end.

Definition group_rows {V : Type} (key : Row Z V -> option K) (k : K)
  (view : Table V) : Table V :=
  filter (in_group key k) view.

Fixpoint lookup {S : Type} (k : K) (m : list (K * S)) : option S :=
  match m with
  | [] => None
  | (k', s) :: rest =>
      match cmp k k' with
      | Eq => Some s
      | _ => lookup k rest
      end
  end.

(** Keys in strictly ascending order. *)
Definition key_sorted {S : Type} (m : list (K * S)) : Prop :=
  StronglySorted (fun a b => cmp (fst a) (fst b) = Lt) m.

(** Descending values, and ascending keys among ties. *)
Definition descending_then_key {V : Type} `{Number V} (a b : K * V) : Prop :=
  descending a b /\ (tie a b -> cmp (fst a) (fst b) = Lt).
End Keyed.


(** ** Example tables *)

(** A row with every cell present. *)
Definition row {V : Type} (title platform : string) (year : Z)
  (genre publisher : string) (sales : V) : Row Z V :=
  mkRow (Some title) (Some platform) year (Some genre) (Some publisher)
    (Some sales).

(** The two rows of the scenario, which gives them no title, and its
    selection. *)
Definition scenario_df : Table float :=
  [ mkRow None (Some "PS2") 2005 (Some "Sports") (Some "EA") (Some 1.5%float);
    mkRow None (Some "X360") 2010 (Some "Action") (Some "Ubi") (Some 2.0%float) ].

Definition scenario_criteria : Criteria :=
  mkCriteria ["Sports"] ["PS2"] (2000, 2010).

(** A file whose year column holds a text that is no integer: the column is
    read as text. *)
Definition csv_bad_year : RawTable float :=
  [ mkRow (Some "FIFA 06") (Some "PS2") (YStr "2005") (Some "Sports")
      (Some "EA") (Some 1.5%float);
    mkRow (Some "Halo 3") (Some "X360") (YStr "20x5") (Some "Shooter")
      (Some "Microsoft") (Some 2.0%float) ].

(** A file with missing cells: the first row has only a year and a
    publisher, the second no year, the third no publisher. *)
Definition csv_missing_cells : RawTable float :=
  [ mkRow None None (YFloat 2006.0%float) None (Some "Nintendo") None;
    mkRow (Some "Tetris") (Some "GB") (YFloat nan) (Some "Puzzle")
      (Some "Nintendo") (Some 30.26%float);
    mkRow (Some "Pong") (Some "2600") (YFloat 1975.0%float) (Some "Sports")
      None (Some 1.0%float) ].

(** Three rows whose float64 sales round differently when grouped. *)
Definition rounding_df : Table float :=
  [ row "Game A" "PS2" 2005 "Action" "EA" 0.98%float;
    row "Game B" "PS2" 2006 "Sports" "EA" 1.76%float;
    row "Game C" "PS2" 2007 "Action" "EA" 0.56%float ].

Definition tenths_df : Table float :=
  [ row "Game A" "PS2" 2005 "Action" "EA" 0.1%float;
    row "Game B" "PS2" 2006 "Action" "EA" 0.2%float;
    row "Game C" "PS2" 2007 "Action" "EA" 0.3%float ].

Definition two_genres : Criteria :=
  mkCriteria ["Action"; "Sports"] ["PS2"] (2000, 2010).

(** A selection with no genre. *)
Definition no_genre : Criteria := mkCriteria [] ["PS2"; "X360"] (2000, 2010).

(** Exact amounts, in units of ten thousand copies. *)
Definition exact_df : Table Z :=
  [ row "Wii Sports" "Wii" 2006 "Sports" "Nintendo" 8274;
    row "GTA: San Andreas" "PS2" 2004 "Action" "Take-Two" 2081;
    row "FIFA 06" "PS2" 2005 "Sports" "EA" 150;
    row "Halo 3" "X360" 2007 "Shooter" "Microsoft" 1212;
    row "Gears of War" "X360" 2006 "Shooter" "Microsoft" 611;
    mkRow (Some "Untitled") (Some "PS2") 2006 (Some "Action") (Some "EA") None ].

Definition exact_criteria : Criteria :=
  mkCriteria ["Action"; "Shooter"; "Sports"] ["PS2"; "X360"] (2004, 2007).

(** Two genres with equal sums. *)
Definition tied_df : Table Z :=
  [ row "Game S" "PS2" 2005 "Shooter" "EA" 100;
    row "Game A" "PS2" 2006 "Action" "EA" 100 ].

Definition tied_criteria : Criteria :=
  mkCriteria ["Action"; "Shooter"] ["PS2"] (2000, 2010).

(** Ten games of one genre with sales of 0.1 each. *)
Definition ten_tenths_df : Table float :=
  map (fun y => row "Game" "PS2" y "Action" "EA" 0.1%float)
    [2001; 2002; 2003; 2004; 2005; 2006; 2007; 2008; 2009; 2010].




(** A view with a row that has no genre. *)
Definition genre_missing_view : Table Z :=
  [ row "Game A" "PS2" 2005 "Action" "EA" 100;
    mkRow (Some "Game B") (Some "PS2") 2006 None (Some "EA") (Some 50) ].

(** ** The rest of the script *)

(** *** Loading through the cache

    [load_data(url)] reads the file at [url] and cleans it; the decorator
    [@st.cache_data] keeps the table it returned, by argument, so that a
    later run with the same [url] gets the kept table and the function body
    is not run.  A call that raises keeps nothing.  [read_csv] stands for
    what the address would deliver at the time of the call. *)

Section Caching.
Context {V : Type}.

Definition load_data_url (read_csv : string -> Result (RawTable V))
  (url : string) : Result (Table V) :=
  csv <- read_csv url ;; load_data csv.

Definition Cache : Type := list (string * Table V).

Fixpoint cached (cache : Cache) (url : string) : option (Table V) :=
  match cache with
  | [] => None
  | (u, df) :: rest => if String.eqb url u then Some df else cached rest url
  end.

Definition cache_data (f : string -> Result (Table V)) (cache : Cache)
  (url : string) : Cache * Result (Table V) :=
  match cached cache url with
  | Some df => (cache, Ok df)
  | None =>
      match f url with
      | Ok df => ((url, df) :: cache, Ok df)
      | Raise e => (cache, Raise e)
      end
  end.

(** One run of the script's loading step, lines 10 to 26. *)
Definition cached_load (read_csv : string -> Result (RawTable V))
  (cache : Cache) (url : string) : Cache * Loaded :=
  match cache_data (load_data_url read_csv) cache url with
  | (cache', Ok df) => (cache', Running df)
  | (cache', Raise e) => (cache', Stopped e)
  end.
End Caching.

(** *** The options of the sidebar

    [sorted(df['Genre'].unique())]: the distinct cells of the column in
    order of first appearance, a missing cell (NaN) among them, then sorted
    by Python.  Python orders texts by code point, which is the order of
    [String.compare] on their bytes; comparing a text with NaN raises
    [TypeError]; NaN alone compares with nothing. *)

Definition cell_eqb (a b : option string) : bool :=
  match a, b with
  | Some x, Some y => String.eqb x y
  | None, None => true
  | _, _ => false
  end.

Definition unique (cells : list (option string)) : list (option string) :=
  fold_left
    (fun seen c => if existsb (cell_eqb c) seen then seen else (seen ++ [c])%list)
    cells [].

Fixpoint insert_text (x : string) (l : list string) : list string :=
  match l with
  | [] => [x]
  | y :: r =>
      match String.compare x y with
      | Gt => y :: insert_text x r
      | _ => x :: l
      end
  end.

Definition sort_texts (l : list string) : list string :=
  fold_right insert_text [] l.

(** The texts of a list of cells, when none is missing. *)
Fixpoint texts (cells : list (option string)) : option (list string) :=
  match cells with
  | [] => Some []
  | Some s :: rest => option_map (cons s) (texts rest)
  | None :: _ => None
  end.

Inductive PySorted : Type :=
| SortedList (l : list (option string))
| TypeError.

Definition py_sorted (cells : list (option string)) : PySorted :=
  match texts cells with
  | Some ts => SortedList (map Some (sort_texts ts))
  | None => if forallb isna cells then SortedList cells else TypeError
  end.

Section Sidebar.
Context {V : Type}.

(** Lines 32 and 40. *)
Definition genres (df : Table V) : PySorted := py_sorted (unique (map Genre df)).

Definition platforms (df : Table V) : PySorted :=
  py_sorted (unique (map Platform df)).

(** Lines 48 and 49: [min()] and [max()] of the integer year column; of an
    empty column they are NaN, here [None]. *)
Definition min_year (df : Table V) : option Z :=
  match map Year df with
  | [] => None
  | y :: ys => Some (fold_left Z.min ys y)
  end.

Definition max_year (df : Table V) : option Z :=
  match map Year df with
  | [] => None
  | y :: ys => Some (fold_left Z.max ys y)
  end.
End Sidebar.

(** The platforms the script preselects, line 44. *)
Definition default_platforms : list string := ["PS2"; "X360"; "PS3"; "Wii"; "DS"].

(** *** The count metric: [f"{num_games:,}"]

    The decimal digits of the count, with a comma before every group of
    three digits counted from the right. *)

Fixpoint group3 (l : list ascii) : list ascii :=
  match l with
  | a :: b :: c :: rest =>
      match rest with
      | [] => l
      | _ :: _ => a :: b :: c :: ","%char :: group3 rest
      end
  | _ => l
  end.

Definition decimal (n : nat) : list ascii :=
  list_ascii_of_string (NilEmpty.string_of_uint (Nat.to_uint n)).

Definition format_count (n : nat) : string :=
  string_of_list_ascii (rev (group3 (rev (decimal n)))).

(** The table of an integer-year file: each row of a loaded table read
    back as a raw row. *)
Definition as_raw {V : Type} (c : Row Z V) : Row YearCell V :=
  mkRow (Name c) (Platform c) (YInt (Year c)) (Genre c) (Publisher c)
    (Global_Sales c).

(** A decimal digit, and a character that is no comma. *)
Definition is_digit (c : ascii) : bool :=
  match digit_of c with
  | Some _ => true
  | None => false
  end.

Definition not_comma (c : ascii) : bool := negb (Ascii.eqb c ","%char).

(** More example selections: a narrower one, one that lists a genre twice,
    one with its year range upside down. *)
Definition shooters_only : Criteria := mkCriteria ["Shooter"] ["X360"] (2006, 2007).

Definition listed_twice : Criteria :=
  mkCriteria ["Sports"; "Shooter"; "Action"; "Sports"] ["X360"; "PS2"] (2004, 2007).

Definition upside_down : Criteria :=
  mkCriteria ["Action"; "Shooter"; "Sports"] ["PS2"; "X360"] (2007, 2004).

(** An address that delivers the file with missing cells, and one that
    cannot be read. *)
Definition delivers_missing_cells (url : string) : Result (RawTable float) :=
  Ok csv_missing_cells.

Definition delivers_bad_year (url : string) : Result (RawTable float) :=
  Ok csv_bad_year.

Definition loaded_missing_cells : Table float :=
  [ mkRow None None 2006 None (Some "Nintendo") None ].

(** * Proofs *)

#[export] Instance Z_ExactAdd : ExactAdd Z.
Proof. split; simpl; intros; lia. Qed.

#[export] Instance Z_ExactSub : ExactSub Z.
Proof. split; simpl; intros; lia. Qed.

#[export] Instance Z_TotalLeb : TotalLeb Z.
Proof.
  split; simpl; intros.
  - destruct (Z.leb_spec a b); [left; reflexivity | right; apply Z.leb_le; lia].
  - apply Z.leb_le. apply Z.leb_le in H, H0. lia.
Qed.

(** ** The order of float64

    [<=] on floats is the order of their sign, exponent and mantissa; it is
    transitive, and total on the floats that are not NaN. *)

Lemma SFleb_trans (a b c : SpecFloat.spec_float) :
  SpecFloat.SFleb a b = true -> SpecFloat.SFleb b c = true ->
  SpecFloat.SFleb a c = true.
Proof.
  unfold SpecFloat.SFleb, SpecFloat.SFcompare.
  destruct a as [sa|sa| |sa ma ea], b as [sb|sb| |sb mb eb],
    c as [sc|sc| |sc mc ec];
    try destruct sa; try destruct sb; try destruct sc; simpl;
    try discriminate; try reflexivity.
  all: destruct (Z.compare_spec ea eb), (Z.compare_spec eb ec),
    (Z.compare_spec ea ec);
    try discriminate; try reflexivity; try lia; subst.
  all: change (Pos.compare_cont Eq) with Pos.compare in *.
  all: destruct (Pos.compare_spec ma mb), (Pos.compare_spec mb mc),
    (Pos.compare_spec ma mc);
    simpl; try discriminate; try reflexivity; try lia.
Qed.

Lemma SFleb_total (a b : SpecFloat.spec_float) :
  a <> SpecFloat.S754_nan -> b <> SpecFloat.S754_nan ->
  SpecFloat.SFleb a b = true \/ SpecFloat.SFleb b a = true.
Proof.
  unfold SpecFloat.SFleb, SpecFloat.SFcompare.
  destruct a as [sa|sa| |sa ma ea], b as [sb|sb| |sb mb eb];
    try destruct sa; try destruct sb; simpl; intros Ha Hb;
    try congruence; auto.
  all: rewrite (Z.compare_antisym ea eb);
    destruct (Z.compare_spec ea eb); simpl; auto; subst.
  all: change (Pos.compare_cont Eq) with Pos.compare in *;
    rewrite (Pos.compare_antisym ma mb);
    destruct (Pos.compare ma mb); simpl; auto.
Qed.

Lemma float_not_nan (f : float) :
  PrimFloat.is_nan f = false -> FloatOps.Prim2SF f <> SpecFloat.S754_nan.
Proof.
  unfold PrimFloat.is_nan. rewrite FloatAxioms.eqb_spec. intros E N.
  rewrite N in E. discriminate.
Qed.

#[export] Instance float_TotalLeb : TotalLeb float.
Proof.
  split; simpl; intros.
  - rewrite !FloatAxioms.leb_spec. apply SFleb_total; apply float_not_nan; assumption.
  - rewrite FloatAxioms.leb_spec in *. eapply SFleb_trans; eassumption.
Qed.

(** ** Loading *)

Section LoadingFacts.
Context {V : Type}.
Implicit Types (csv : RawTable V) (df : Table V).

Lemma filter_Subsequence {A : Type} (p : A -> bool) (l : list A) :
  Subsequence (filter p l) l.
Proof.
  induction l as [|x l IH]; simpl.
  - constructor.
  - destruct (p x); constructor; exact IH.
Qed.

Lemma Subsequence_length {A : Type} (s l : list A) :
  Subsequence s l -> (List.length s <= List.length l)%nat.
Proof. induction 1; simpl; lia. Qed.

Lemma dropna_In csv r :
  In r (dropna csv) <->
  In r csv /\ isna_year (Year r) = false /\ isna (Publisher r) = false.
Proof.
  unfold dropna. rewrite filter_In, andb_true_iff, !negb_true_iff. tauto.
Qed.

(** A successful conversion converts row by row. *)
Lemma astype_int_column_Ok (raw : RawTable V) df :
  astype_int_column raw = Ok df -> Forall2 cleaned raw df.
Proof.
  revert df. induction raw as [|r raw IH]; simpl; intros df E.
  - inversion E. constructor.
  - destruct (astype_int (Year r)) as [y|e] eqn:Ey; simpl in E; [|discriminate].
    destruct (astype_int_column raw) as [t|e] eqn:Et; simpl in E; [|discriminate].
    inversion E; subst. constructor.
    + split; [exact Ey | reflexivity].
    + apply IH. reflexivity.
Qed.

(** A failed conversion is the failure of one of the rows. *)
Lemma astype_int_column_Raise (raw : RawTable V) e :
  astype_int_column raw = Raise e ->
  exists r, In r raw /\ astype_int (Year r) = Raise e.
Proof.
  induction raw as [|r raw IH]; simpl; intros E.
  - discriminate.
  - destruct (astype_int (Year r)) as [y|e'] eqn:Ey; simpl in E.
    + destruct (astype_int_column raw) as [t|e'] eqn:Et; simpl in E; [discriminate|].
      inversion E; subst. destruct IH as [r' [Hin Hr']]; [reflexivity|].
      exists r'. split; [right; exact Hin | exact Hr'].
    + inversion E; subst. exists r. split; [left; reflexivity | exact Ey].
Qed.

(** One row that does not convert makes the whole conversion fail. *)
Lemma astype_int_column_fails (raw : RawTable V) r e :
  In r raw -> astype_int (Year r) = Raise e ->
  exists e', astype_int_column raw = Raise e'.
Proof.
  induction raw as [|r0 raw IH]; simpl; intros Hin Hr.
  - contradiction.
  - destruct (astype_int (Year r0)) as [y|e0] eqn:Ey; simpl.
    + destruct Hin as [->|Hin]; [congruence|].
      destruct (IH Hin Hr) as [e' ->]. exists e'. reflexivity.
    + exists e0. reflexivity.
Qed.

Lemma Forall2_length_eq {A B : Type} (R : A -> B -> Prop) l l' :
  Forall2 R l l' -> List.length l = List.length l'.
Proof. induction 1; simpl; congruence. Qed.

Lemma Forall2_In_l {A B : Type} (R : A -> B -> Prop) l l' a :
  Forall2 R l l' -> In a l -> exists b, In b l' /\ R a b.
Proof.
  induction 1 as [|x y l l' Hxy _ IH]; simpl; intros Hin.
  - contradiction.
  - destruct Hin as [->|Hin].
    + exists y. auto.
    + destruct (IH Hin) as [b [Hb Hab]]. exists b. auto.
Qed.

Lemma Forall2_In_r {A B : Type} (R : A -> B -> Prop) l l' b :
  Forall2 R l l' -> In b l' -> exists a, In a l /\ R a b.
Proof.
  induction 1 as [|x y l l' Hxy _ IH]; simpl; intros Hin.
  - contradiction.
  - destruct Hin as [->|Hin].
    + exists x. auto.
    + destruct (IH Hin) as [a [Ha Hab]]. exists a. auto.
Qed.

(** C3, as the code has it.  [load_data] keeps exactly the rows whose year
    and publisher are both present, in the order of the file, so a row with
    a missing publisher is gone and the table does not grow.  Each kept
    row comes back with its year converted to an integer and nothing else
    changed.  A kept row whose year does not convert (a text that is not an
    integer literal, an infinite float) is not dropped: the conversion of
    the whole column raises, [load_data] returns no table at all, and every
    such row has this effect. *)
Theorem load_data_drops_missing_or_raises csv :
  Subsequence (dropna csv) csv
  /\ (forall r, In r (dropna csv) <->
        In r csv /\ isna_year (Year r) = false /\ isna (Publisher r) = false)
  /\ (forall r, In r csv -> Publisher r = None -> ~ In r (dropna csv))
  /\ match load_data csv with
     | Ok df =>
         Forall2 cleaned (dropna csv) df
         /\ (List.length df <= List.length csv)%nat
     | Raise e =>
         exists r, In r (dropna csv) /\ astype_int (Year r) = Raise e
     end
  /\ (forall r e, In r (dropna csv) -> astype_int (Year r) = Raise e ->
        exists e', load_data csv = Raise e'
                   /\ load_or_stop (Ok csv) = Stopped e').
Proof.
  split; [apply filter_Subsequence|].
  split; [apply dropna_In|].
  split.
  { intros r _ Hp Hin. apply dropna_In in Hin.
    destruct Hin as [_ [_ Hpub]]. rewrite Hp in Hpub. discriminate. }
  split.
  - unfold load_data. destruct (astype_int_column (dropna csv)) as [df|e] eqn:E.
    + pose proof (astype_int_column_Ok _ _ E) as HF. split; [exact HF|].
      rewrite <- (Forall2_length_eq _ _ _ HF).
      apply Subsequence_length, filter_Subsequence.
    + apply astype_int_column_Raise. exact E.
  - intros r e Hin Hr.
    destruct (astype_int_column_fails _ _ _ Hin Hr) as [e' He'].
    exists e'. unfold load_or_stop, load_data. simpl. rewrite He'. auto.
Qed.

(** C10.  When [load_data] returns a table, every row of the file whose
    year and publisher are present is in it, whatever its title, genre,
    platform and sales cells hold, missing or not: these cells come back
    unchanged.  And every row of the table comes from such a row of the
    file. *)
Theorem rows_missing_other_fields_survive csv df :
  load_data csv = Ok df ->
  (forall r, In r csv ->
     isna_year (Year r) = false -> isna (Publisher r) = false ->
     exists c, In c df
       /\ Name c = Name r /\ Genre c = Genre r /\ Platform c = Platform r
       /\ Global_Sales c = Global_Sales r /\ Publisher c = Publisher r
       /\ astype_int (Year r) = Ok (Year c))
  /\ (forall c, In c df ->
        exists r, In r csv /\ isna_year (Year r) = false
          /\ isna (Publisher r) = false /\ cleaned r c).
Proof.
  unfold load_data. intros E. apply astype_int_column_Ok in E. split.
  - intros r Hin Hy Hp.
    assert (Hd : In r (dropna csv)) by (apply dropna_In; auto).
    destruct (Forall2_In_l _ _ _ _ E Hd) as [c [Hc [Hyc Hceq]]].
    exists c. split; [exact Hc|].
    rewrite Hceq at 1 2 3 4 5. simpl. repeat split. exact Hyc.
  - intros c Hc.
    destruct (Forall2_In_r _ _ _ _ E Hc) as [r [Hr Hrc]].
    apply dropna_In in Hr. destruct Hr as [Hin [Hy Hp]].
    exists r. auto.
Qed.
End LoadingFacts.

(** ** Filtering *)

Lemma isin_true (c : option string) (values : list string) :
  isin c values = true <-> exists s, c = Some s /\ In s values.
Proof.
  destruct c as [s|]; simpl.
  - rewrite existsb_exists. split.
    + intros [x [Hin Hx]]. apply String.eqb_eq in Hx. subst. eauto.
    + intros [x [Hs Hin]]. inversion Hs; subst. exists x.
      split; [exact Hin | apply String.eqb_refl].
  - split; [discriminate | intros [s [Hs _]]; discriminate].
Qed.

Section FilterFacts.
Context {V : Type} `{Number V}.
Implicit Types (df view : Table V) (C : Criteria) (r : Row Z V).

Lemma mask_true C r :
  mask C r = true <->
  genre_selected C r /\ platform_selected C r /\ year_selected C r.
Proof.
  unfold mask, genre_selected, platform_selected, year_selected.
  rewrite !andb_true_iff, !isin_true, !Z.leb_le. tauto.
Qed.

Lemma mask_false C r :
  mask C r = false ->
  ~ genre_selected C r \/ ~ platform_selected C r \/ ~ year_selected C r.
Proof.
  unfold mask, genre_selected, platform_selected, year_selected.
  rewrite !andb_false_iff, !Z.leb_gt. intros [[[Hg|Hp]|Hlo]|Hhi].
  - left. intros Hg'. apply isin_true in Hg'. congruence.
  - right; left. intros Hp'. apply isin_true in Hp'. congruence.
  - right; right. lia.
  - right; right. lia.
Qed.

(** C1.  A row is in the filtered table exactly when it is in the table and
    its genre is selected, its platform is selected and its year lies in
    the selected range, bounds included (so a range of one year keeps that
    year); a row of the table that is not in the filtered table fails one
    of the three; and the kept rows are in the order of the table. *)
Theorem filtered_df_conjunction df C :
  (forall r, In r (filtered_df df C) <->
     In r df /\ genre_selected C r /\ platform_selected C r
     /\ year_selected C r)
  /\ (forall r, In r df -> ~ In r (filtered_df df C) ->
        ~ genre_selected C r \/ ~ platform_selected C r
        \/ ~ year_selected C r)
  /\ Subsequence (filtered_df df C) df.
Proof.
  unfold filtered_df. split; [|split].
  - intros r. rewrite filter_In, mask_true. tauto.
  - intros r Hin Hout. apply mask_false.
    destruct (mask C r) eqn:E; [|reflexivity].
    exfalso. apply Hout. apply filter_In. auto.
  - apply filter_Subsequence.
Qed.
End FilterFacts.

(** ** Orders on keys *)

Lemma string_compare_refl (s : string) : String.compare s s = Eq.
Proof.
  induction s as [|c s IH]; simpl; [reflexivity|].
  unfold Ascii.compare. rewrite N.compare_refl. exact IH.
Qed.

Lemma string_compare_trans (a b c : string) :
  String.compare a b = Lt -> String.compare b c = Lt -> String.compare a c = Lt.
Proof.
  revert b c. induction a as [|x a IH]; intros [|y b] [|z c]; simpl;
    try discriminate; try reflexivity.
  unfold Ascii.compare.
  destruct (N.compare_spec (N_of_ascii x) (N_of_ascii y)) as [Exy|Lxy|Gxy];
    try discriminate;
    destruct (N.compare_spec (N_of_ascii y) (N_of_ascii z)) as [Eyz|Lyz|Gyz];
    try discriminate; intros Hab Hbc.
  - rewrite Exy, Eyz, N.compare_refl. eapply IH; eassumption.
  - rewrite Exy. apply N.compare_lt_iff in Lyz. rewrite Lyz. reflexivity.
  - rewrite <- Eyz. apply N.compare_lt_iff in Lxy. rewrite Lxy. reflexivity.
  - assert (L : (N_of_ascii x < N_of_ascii z)%N) by lia.
    apply N.compare_lt_iff in L. rewrite L. reflexivity.
Qed.

#[export] Instance string_KeyOrder : KeyOrder String.compare.
Proof.
  split.
  - intros a b. split.
    + apply String.compare_eq_iff.
    + intros ->. apply string_compare_refl.
  - apply String.compare_antisym.
  - apply string_compare_trans.
Qed.

#[export] Instance Z_KeyOrder : KeyOrder Z.compare.
Proof.
  split.
  - intros a b. apply Z.compare_eq_iff.
  - intros a b. apply Z.compare_antisym.
  - intros a b c. rewrite !Z.compare_lt_iff. lia.
Qed.


(** ** Mappings with sorted keys *)

Section KeyedFacts.
Context {K : Type} (cmp : K -> K -> comparison) `{!KeyOrder cmp} {S : Type}.
Implicit Types (k : K) (m : list (K * S)).

Lemma cmp_refl k : cmp k k = Eq.
Proof. apply cmp_eq. reflexivity. Qed.

Lemma cmp_Gt_Lt (a b : K) : cmp a b = Gt -> cmp b a = Lt.
Proof. intros E. rewrite cmp_antisym, E. reflexivity. Qed.

Lemma cmp_Eq_sym (a b : K) : is_Eq (cmp a b) = is_Eq (cmp b a).
Proof. rewrite (cmp_antisym a b). destruct (cmp b a); reflexivity. Qed.

Lemma is_Eq_true (a b : K) : is_Eq (cmp a b) = true <-> a = b.
Proof.
  rewrite <- cmp_eq. destruct (cmp a b); simpl; split; congruence.
Qed.

Lemma lookup_above k m :
  Forall (fun b => cmp k (fst b) = Lt) m -> lookup cmp k m = None.
Proof.
  induction 1 as [|[k' s] rest L _ IH]; simpl; [reflexivity|].
  simpl in L. rewrite L. exact IH.
Qed.

Lemma In_lookup k (s : S) m :
  key_sorted cmp m -> (In (k, s) m <-> lookup cmp k m = Some s).
Proof.
  unfold key_sorted.
  induction m as [|[k0 s0] rest IH]; simpl; intros HS.
  - split; [contradiction | discriminate].
  - apply StronglySorted_inv in HS. destruct HS as [HS HF].
    destruct (cmp k k0) eqn:E.
    + apply cmp_eq in E. subst k0. split.
      * intros [Heq|Hin]; [congruence|].
        rewrite Forall_forall in HF. apply HF in Hin. simpl in Hin.
        rewrite cmp_refl in Hin. discriminate.
      * intros Heq. left. congruence.
    + rewrite <- (IH HS). split; [|auto].
      intros [Heq|Hin]; [|exact Hin].
      inversion Heq; subst. rewrite cmp_refl in E. discriminate.
    + rewrite <- (IH HS). split; [|auto].
      intros [Heq|Hin]; [|exact Hin].
      inversion Heq; subst. rewrite cmp_refl in E. discriminate.
Qed.

Lemma key_sorted_keys m :
  key_sorted cmp m ->
  StronglySorted (fun a b => cmp a b = Lt) (map fst m).
Proof.
  unfold key_sorted. induction 1 as [|x m HS IH HF]; simpl; constructor.
  - exact IH.
  - rewrite Forall_map. exact HF.
Qed.

Lemma sorted_keys_NoDup (ks : list K) :
  StronglySorted (fun a b => cmp a b = Lt) ks -> NoDup ks.
Proof.
  induction 1 as [|x ks HS IH HF]; constructor; [|exact IH].
  intros Hin. rewrite Forall_forall in HF. apply HF in Hin.
  rewrite cmp_refl in Hin. discriminate.
Qed.

(** Two mappings with strictly ascending keys and the same entries are the
    same list. *)
Lemma key_sorted_ext m m' :
  key_sorted cmp m -> key_sorted cmp m' ->
  (forall x, In x m <-> In x m') -> m = m'.
Proof.
  unfold key_sorted. intros HS. revert m'.
  induction HS as [|x m HS IH HF]; intros m' HS' Hext.
  - destruct m' as [|y m']; [reflexivity|].
    exfalso. apply (Hext y). left. reflexivity.
  - destruct HS' as [|y m' HS' HF'].
    + exfalso. apply (Hext x). left. reflexivity.
    + rewrite Forall_forall in HF, HF'.
      assert (Exy : x = y).
      { destruct (proj1 (Hext x) (or_introl eq_refl)) as [E|Hx]; [auto|].
        destruct (proj2 (Hext y) (or_introl eq_refl)) as [E|Hy]; [auto|].
        apply HF in Hy. apply HF' in Hx.
        pose proof (cmp_trans _ _ _ Hx Hy) as L.
        rewrite cmp_refl in L. discriminate. }
      subst y. f_equal. apply IH; [exact HS'|].
      intros z. split; intros Hz.
      * destruct (proj1 (Hext z) (or_intror Hz)) as [E|Hz']; [|exact Hz'].
        subst z. apply HF in Hz. rewrite cmp_refl in Hz. discriminate.
      * destruct (proj2 (Hext z) (or_intror Hz)) as [E|Hz']; [|exact Hz'].
        subst z. apply HF' in Hz. rewrite cmp_refl in Hz. discriminate.
Qed.

Lemma key_sorted_map {S' : Type} (f : S -> S') m :
  key_sorted cmp m -> key_sorted cmp (map (fun e => (fst e, f (snd e))) m).
Proof.
  unfold key_sorted. induction 1 as [|x m HS IH HF]; simpl; constructor.
  - exact IH.
  - rewrite Forall_map. exact HF.
Qed.
End KeyedFacts.

(** ** Grouped sums *)

Section GroupByFacts.
Context {V : Type} `{Number V}.
Context {K : Type} (cmp : K -> K -> comparison) `{!KeyOrder cmp}.
Variable key : Row Z V -> option K.
Implicit Types (k : K) (acc : list (K * (V * V))) (view : Table V).

Abbreviation step :=
  (fun acc r =>
     match key r with
     | Some k => upsert cmp k (Global_Sales r) acc
     | None => acc
     end).

Abbreviation fresh := (@num_zero V _, @num_zero V _).

Lemma upsert_Forall (P : K * (V * V) -> Prop) k c acc :
  (forall s, P (k, s)) ->
  (forall k' s s', P (k', s) -> P (k', s')) ->
  Forall P acc -> Forall P (upsert cmp k c acc).
Proof.
  intros Pk Pv. induction acc as [|[k' s] rest IH]; simpl; intros HF.
  - constructor; [apply Pk | constructor].
  - inversion HF as [|? ? Hhd Htl]; subst.
    destruct (cmp k k').
    + constructor; [eapply Pv; exact Hhd | exact Htl].
    + constructor; [apply Pk | exact HF].
    + constructor; [exact Hhd | apply IH; exact Htl].
Qed.

Lemma upsert_sorted k c acc :
  key_sorted cmp acc -> key_sorted cmp (upsert cmp k c acc).
Proof.
  unfold key_sorted.
  induction acc as [|[k' s] rest IH]; simpl; intros HS.
  - constructor; constructor.
  - apply StronglySorted_inv in HS. destruct HS as [HS HF].
    destruct (cmp k k') eqn:E.
    + constructor; [exact HS | exact HF].
    + constructor; [constructor; assumption|].
      constructor; [exact E|].
      eapply Forall_impl; [|exact HF]. simpl. intros [k2 s2] L. simpl in *.
      eapply cmp_trans; eassumption.
    + constructor; [apply IH; exact HS|].
      apply upsert_Forall; simpl; auto.
      intros _. apply (cmp_Gt_Lt cmp). exact E.
Qed.

Lemma lookup_upsert k' k c acc :
  key_sorted cmp acc ->
  lookup cmp k' (upsert cmp k c acc) =
  if is_Eq (cmp k' k)
  then Some (bump match lookup cmp k acc with Some s => s | None => fresh end c)
  else lookup cmp k' acc.
Proof.
  unfold key_sorted.
  induction acc as [|[k0 s] rest IH]; simpl; intros HS.
  - destruct (cmp k' k); reflexivity.
  - apply StronglySorted_inv in HS. destruct HS as [HS HF].
    destruct (cmp k k0) eqn:E; simpl.
    + apply cmp_eq in E. subst k0.
      destruct (cmp k' k); reflexivity.
    + rewrite (lookup_above cmp k rest).
      * destruct (cmp k' k); reflexivity.
      * eapply Forall_impl; [|exact HF]. simpl. intros b L.
        eapply cmp_trans; eassumption.
    + destruct (cmp k' k0) eqn:E0.
      * apply cmp_eq in E0. subst k0.
        rewrite (cmp_Gt_Lt cmp _ _ E). reflexivity.
      * rewrite (IH HS). reflexivity.
      * rewrite (IH HS). reflexivity.
Qed.

Lemma fold_step_sorted view acc :
  key_sorted cmp acc -> key_sorted cmp (fold_left step view acc).
Proof.
  revert acc. induction view as [|r view IH]; simpl; intros acc HS.
  - exact HS.
  - apply IH. destruct (key r); [apply upsert_sorted|]; exact HS.
Qed.

Lemma group_states_sorted view : key_sorted cmp (group_states cmp key view).
Proof. apply fold_step_sorted. constructor. Qed.

Lemma groupby_sum_sorted view : key_sorted cmp (groupby_sum cmp key view).
Proof. apply (key_sorted_map cmp fst), group_states_sorted. Qed.

Lemma lookup_fold_step k view acc :
  key_sorted cmp acc ->
  lookup cmp k (fold_left step view acc) =
  match lookup cmp k acc with
  | Some s =>
      Some (fold_left bump (map Global_Sales (group_rows cmp key k view)) s)
  | None =>
      if existsb (in_group cmp key k) view
      then Some (fold_left bump (map Global_Sales (group_rows cmp key k view)) fresh)
      else None
  end.
Proof.
  unfold group_rows.
  revert acc. induction view as [|r view IH]; simpl; intros acc HS.
  - destruct (lookup cmp k acc); reflexivity.
  - destruct (key r) as [k1|] eqn:Ek.
    + assert (Hg : in_group cmp key k r = is_Eq (cmp k k1)).
      { unfold in_group. rewrite Ek. apply (cmp_Eq_sym cmp). }
      rewrite Hg, (IH _ (upsert_sorted k1 _ acc HS)), (lookup_upsert _ _ _ _ HS).
      destruct (is_Eq (cmp k k1)) eqn:E; simpl.
      * apply (is_Eq_true cmp) in E. subst k1.
        destruct (lookup cmp k acc); reflexivity.
      * reflexivity.
    + assert (Hg : in_group cmp key k r = false).
      { unfold in_group. rewrite Ek. reflexivity. }
      rewrite Hg. simpl. apply IH. exact HS.
Qed.

Lemma existsb_in_group k view :
  existsb (in_group cmp key k) view = true <->
  exists r, In r view /\ key r = Some k.
Proof.
  rewrite existsb_exists. unfold in_group. split.
  - intros [r [Hin Hr]]. exists r. split; [exact Hin|].
    destruct (key r) as [k'|]; [|discriminate].
    apply (is_Eq_true cmp) in Hr. congruence.
  - intros [r [Hin Hr]]. exists r. split; [exact Hin|].
    rewrite Hr. apply (is_Eq_true cmp). reflexivity.
Qed.

Lemma group_states_In k (st : V * V) view :
  In (k, st) (group_states cmp key view) <->
  (exists r, In r view /\ key r = Some k)
  /\ st = fold_left bump (map Global_Sales (group_rows cmp key k view)) fresh.
Proof.
  rewrite (In_lookup cmp _ _ _ (group_states_sorted view)).
  unfold group_states. rewrite lookup_fold_step by constructor. simpl.
  rewrite <- existsb_in_group.
  destruct (existsb (in_group cmp key k) view); split.
  - intros E. inversion E. auto.
  - intros [_ ->]. reflexivity.
  - discriminate.
  - intros [E _]. discriminate.
Qed.

(** The running sum that the engine keeps for a group is the compensated
    sum of the sales of the group's rows. *)
Lemma fold_bump_compensated (rows : Table V) (s e : V) :
  fst (fold_left bump (map Global_Sales rows) (s, e)) =
  compensated_from s e (sales_of rows).
Proof.
  revert s e. induction rows as [|r rows IH]; simpl; intros s e; [reflexivity|].
  destruct (Global_Sales r) as [v|]; simpl; apply IH.
Qed.

(** The grouped sums: one entry per key that occurs, holding the
    compensated sum of the sales of the rows with that key, in row order. *)
Lemma groupby_sum_In k (s : V) view :
  In (k, s) (groupby_sum cmp key view) <->
  (exists r, In r view /\ key r = Some k)
  /\ s = compensated_sum (sales_of (group_rows cmp key k view)).
Proof.
  unfold groupby_sum, compensated_sum. rewrite in_map_iff. split.
  - intros [[k' st] [E Hin]]. simpl in E. inversion E; subst k' s.
    apply group_states_In in Hin. destruct Hin as [Hr ->].
    split; [exact Hr | apply fold_bump_compensated].
  - intros [Hr ->].
    exists (k, fold_left bump (map Global_Sales (group_rows cmp key k view)) fresh).
    split.
    + simpl. f_equal. apply fold_bump_compensated.
    + apply group_states_In. split; [exact Hr | reflexivity].
Qed.

(** Every row with a key has the entry of its key in the grouped sums. *)
Lemma groupby_sum_covers view r k :
  In r view -> key r = Some k ->
  exists s, In (k, s) (groupby_sum cmp key view).
Proof.
  intros Hin Hk. eexists. apply groupby_sum_In.
  split; [exists r; split; assumption | reflexivity].
Qed.

Lemma groupby_sum_key view k :
  In k (map fst (groupby_sum cmp key view)) <->
  exists r, In r view /\ key r = Some k.
Proof.
  rewrite in_map_iff. split.
  - intros [[k' s] [E Hin]]. simpl in E. subst k'.
    apply groupby_sum_In in Hin. tauto.
  - intros [r [Hin Hk]].
    destruct (groupby_sum_covers view r k Hin Hk) as [s Hs].
    exists (k, s). split; [reflexivity | exact Hs].
Qed.

Lemma groupby_sum_NoDup view : NoDup (map fst (groupby_sum cmp key view)).
Proof.
  apply (sorted_keys_NoDup cmp), (key_sorted_keys cmp), groupby_sum_sorted.
Qed.
End GroupByFacts.

(** ** Sorting by value *)

Section SortFacts.
Context {V : Type} `{Number V} {K : Type}.
Implicit Types (l s : list (K * V)) (x y : K * V).

Abbreviation NoNaN := (Forall (fun e : K * V => num_isnan (snd e) = false)).

Lemma insert_by_Permutation before x l :
  Permutation (insert_by before x l) (x :: l).
Proof.
  induction l as [|y l IH]; simpl.
  - apply Permutation_refl.
  - destruct (before (snd x) (snd y)).
    + apply Permutation_refl.
    + eapply Permutation_trans; [apply perm_skip; exact IH | apply perm_swap].
Qed.

Lemma insertion_sort_by_Permutes (before : V -> V -> bool) :
  Permutes (insertion_sort_by (K:=K) before).
Proof.
  intros l. induction l as [|x l IH]; simpl.
  - apply Permutation_refl.
  - eapply Permutation_trans; [apply insert_by_Permutation|].
    apply perm_skip. exact IH.
Qed.

Lemma stable_sort_Permutes : Permutes (stable_sort (K:=K)).
Proof. apply insertion_sort_by_Permutes. Qed.

Lemma Permutes_nil (kind : SortKind V K) : Permutes kind -> kind [] = [].
Proof. intros HP. apply Permutation_nil, Permutation_sym, HP. Qed.

Lemma Permutes_singleton (kind : SortKind V K) x :
  Permutes kind -> kind [x] = [x].
Proof. intros HP. apply Permutation_length_1_inv, Permutation_sym, HP. Qed.

Lemma filter_value_notna s : NoNaN (filter value_notna s).
Proof.
  apply Forall_forall. intros e He. apply filter_In in He.
  destruct He as [_ He]. unfold value_notna in He.
  apply negb_true_iff. exact He.
Qed.


Lemma filter_notna_isna s :
  Permutation (filter value_notna s ++ filter value_isna s) s.
Proof.
  induction s as [|e s IH]; simpl; [constructor|].
  unfold value_notna at 1, value_isna at 1.
  destruct (num_isnan (snd e)); simpl.
  - apply Permutation_sym. apply Permutation_cons_app.
    apply Permutation_sym. exact IH.
  - constructor. exact IH.
Qed.

(** A series without NaN: nothing is set aside. *)
Lemma filter_notna_all s : NoNaN s -> filter value_notna s = s /\ filter value_isna s = [].
Proof.
  induction 1 as [|e s He _ [IH1 IH2]]; simpl; [auto|].
  unfold value_notna at 1, value_isna at 1. rewrite He. simpl.
  rewrite IH1, IH2. auto.
Qed.

Lemma sort_values_desc_Permutation_on (kind : SortKind V K) s :
  (forall l, NoNaN l -> Permutation (kind l) l) ->
  Permutation (sort_values_desc kind s) s.
Proof.
  intros HP. unfold sort_values_desc.
  eapply Permutation_trans; [|apply filter_notna_isna].
  apply Permutation_app_tail.
  eapply Permutation_trans; [apply Permutation_sym, Permutation_rev|].
  eapply Permutation_trans; [apply HP|].
  - apply Forall_rev, filter_value_notna.
  - apply Permutation_sym, Permutation_rev.
Qed.

Lemma sort_values_desc_Permutation (kind : SortKind V K) s :
  Permutes kind -> Permutation (sort_values_desc kind s) s.
Proof.
  intros HP. apply sort_values_desc_Permutation_on. intros l _. apply HP.
Qed.

Lemma sort_values_desc_In (kind : SortKind V K) s x :
  Permutes kind -> (In x (sort_values_desc kind s) <-> In x s).
Proof.
  intros HP. pose proof (sort_values_desc_Permutation kind s HP) as P.
  split; apply Permutation_in; [exact P | apply Permutation_sym; exact P].
Qed.

Lemma StronglySorted_snoc (R : K * V -> K * V -> Prop) l x :
  StronglySorted R l -> Forall (fun y => R y x) l ->
  StronglySorted R (l ++ [x]).
Proof.
  induction 1 as [|y l HS IH HF]; simpl; intros Hx.
  - constructor; constructor.
  - inversion Hx as [|? ? Hyx Hlx]; subst. constructor.
    + apply IH. exact Hlx.
    + apply Forall_app. split; [exact HF | constructor; [exact Hyx | constructor]].
Qed.

Lemma StronglySorted_rev (R : K * V -> K * V -> Prop) l :
  StronglySorted R l -> StronglySorted (fun a b => R b a) (rev l).
Proof.
  induction 1 as [|x l HS IH HF]; simpl.
  - constructor.
  - apply StronglySorted_snoc; [exact IH|].
    apply Forall_rev. exact HF.
Qed.


Section Insertion.
Context `{!TotalLeb V}.
Variable before : V -> V -> bool.
Hypothesis before_leb : forall a b, before a b = true -> num_leb a b = true.
Hypothesis behind_leb : forall a b,
  num_isnan a = false -> num_isnan b = false ->
  before a b = false -> num_leb b a = true.


End Insertion.

Lemma num_leb_false `{!TotalLeb V} (a b : V) :
  num_isnan a = false -> num_isnan b = false ->
  num_leb a b = false -> num_leb b a = true.
Proof.
  intros Ha Hb. destruct (num_leb_total a b Ha Hb) as [E|E]; [congruence | auto].
Qed.

End SortFacts.

(** ** Sums and rows *)

Lemma sum_from_fold {V : Type} `{Number V} (vs : list V) (start : V) :
  sum_from start vs = fold_left num_add vs start.
Proof.
  revert start. induction vs as [|v vs IH]; simpl; intros start; [reflexivity|].
  apply IH.
Qed.

Lemma sales_of_app {V : Type} (view view' : Table V) :
  sales_of (view ++ view')%list = (sales_of view ++ sales_of view')%list.
Proof.
  induction view as [|r view IH]; simpl; [reflexivity|].
  destruct (Global_Sales r); simpl; rewrite IH; reflexivity.
Qed.

Lemma sales_of_Permutation {V : Type} (view view' : Table V) :
  Permutation view view' -> Permutation (sales_of view) (sales_of view').
Proof.
  induction 1 as [|r l l' _ IH|r r' l|l l' l'' _ IH1 _ IH2]; simpl.
  - constructor.
  - destruct (Global_Sales r); [constructor|]; exact IH.
  - destruct (Global_Sales r), (Global_Sales r'); try apply Permutation_refl.
    apply perm_swap.
  - eapply Permutation_trans; eassumption.
Qed.

Lemma filter_Permutation {A : Type} (p : A -> bool) (l l' : list A) :
  Permutation l l' -> Permutation (filter p l) (filter p l').
Proof.
  induction 1 as [|x l l' _ IH|x y l|l l' l'' _ IH1 _ IH2]; simpl.
  - constructor.
  - destruct (p x); [constructor|]; exact IH.
  - destruct (p x), (p y); try apply Permutation_refl. apply perm_swap.
  - eapply Permutation_trans; eassumption.
Qed.

(** ** numpy's sum

    The parts of an array of more than 128 numbers are shorter than the
    array: the sum does not depend on the fuel once it is the length. *)

Lemma pairwise_sum_enough {V : Type} `{Number V} (fuel : nat) :
  forall a : list V,
    (List.length a <= fuel + 128)%nat ->
    pairwise_sum (S fuel) a = pairwise_sum fuel a.
Proof.
  induction fuel as [|fuel IH]; intros a Ha.
  - simpl. destruct (Nat.leb_spec (List.length a) 128); [reflexivity | lia].
  - change (pairwise_sum (S (S fuel)) a) with
      (if (List.length a <=? 128)%nat then block_sum a
       else num_add
              (pairwise_sum (S fuel)
                 (firstn (List.length a / 2 - (List.length a / 2) mod 8) a))
              (pairwise_sum (S fuel)
                 (skipn (List.length a / 2 - (List.length a / 2) mod 8) a))).
    change (pairwise_sum (S fuel) a) with
      (if (List.length a <=? 128)%nat then block_sum a
       else num_add
              (pairwise_sum fuel
                 (firstn (List.length a / 2 - (List.length a / 2) mod 8) a))
              (pairwise_sum fuel
                 (skipn (List.length a / 2 - (List.length a / 2) mod 8) a))).
    destruct (Nat.leb_spec (List.length a) 128) as [Hs|Hl]; [reflexivity|].
    pose proof (Nat.mod_upper_bound (List.length a / 2) 8 ltac:(lia)) as Hm.
    pose proof (Nat.div_mod_eq (List.length a) 2) as Hd.
    pose proof (Nat.mod_upper_bound (List.length a) 2 ltac:(lia)) as Hm2.
    rewrite !IH; [reflexivity | |].
    + rewrite length_skipn. lia.
    + rewrite length_firstn. lia.
Qed.

Lemma pairwise_sum_fuel {V : Type} `{Number V} (a : list V) (more : nat) :
  pairwise_sum (List.length a + more) a = pairwise_sum (List.length a) a.
Proof.
  induction more as [|more IH]; [rewrite Nat.add_0_r; reflexivity|].
  rewrite Nat.add_succ_r, pairwise_sum_enough by lia. exact IH.
Qed.

(** A column of fewer than 8 cells is added one after the other. *)
Lemma np_sum_short {V : Type} `{Number V} (a : list V) :
  a <> [] -> (List.length a < 8)%nat ->
  np_sum a = num_add num_zero (fold_left num_add a num_zero).
Proof.
  intros Hne Hn. destruct a as [|v a]; [congruence|].
  unfold np_sum. f_equal.
  destruct a as [|a1 [|a2 [|a3 [|a4 [|a5 [|a6 [|a7 rest]]]]]]];
    try reflexivity.
  simpl in Hn. lia.
Qed.

(** ** Sums in exact arithmetic

    With exact addition the order and the grouping of the additions do not
    matter: numpy's sum is the plain sum. *)

Section ExactSums.
Context {V : Type} `{Number V} `{!ExactAdd V}.
Implicit Types (a b c d s v : V) (vs : list V) (view : Table V).

Lemma num_add_zero_l a : num_add num_zero a = a.
Proof. rewrite num_add_comm. apply num_add_zero_r. Qed.

Lemma num_add_swap a b c : num_add (num_add a b) c = num_add (num_add a c) b.
Proof.
  rewrite <- !num_add_assoc. f_equal. apply num_add_comm.
Qed.

Lemma num_add_interchange a b c d :
  num_add (num_add a b) (num_add c d) = num_add (num_add a c) (num_add b d).
Proof.
  rewrite !num_add_assoc. f_equal. apply num_add_swap.
Qed.

Lemma fold_add_acc vs a b :
  fold_left num_add vs (num_add a b) = num_add a (fold_left num_add vs b).
Proof.
  revert b. induction vs as [|x l IH]; simpl; intros b; [reflexivity|].
  rewrite <- num_add_assoc. apply IH.
Qed.

Lemma fold_add_from vs a :
  fold_left num_add vs a = num_add a (fold_left num_add vs num_zero).
Proof. rewrite <- fold_add_acc, num_add_zero_r. reflexivity. Qed.

Lemma fold_add_Permutation vs vs' :
  Permutation vs vs' -> forall z, fold_left num_add vs z = fold_left num_add vs' z.
Proof.
  induction 1 as [|x l l' _ IH|x y l|l l' l'' _ IH1 _ IH2]; simpl; intros z.
  - reflexivity.
  - apply IH.
  - rewrite num_add_swap. reflexivity.
  - rewrite IH1. apply IH2.
Qed.

Lemma py_sum_fold vs : py_sum vs = fold_left num_add vs num_zero.
Proof. apply sum_from_fold. Qed.

Lemma sum_from_py_sum s vs : sum_from s vs = num_add s (py_sum vs).
Proof. rewrite py_sum_fold, sum_from_fold. apply fold_add_from. Qed.

Lemma py_sum_cons v vs : py_sum (v :: vs) = num_add v (py_sum vs).
Proof.
  unfold py_sum at 1. simpl. rewrite num_add_zero_l. apply sum_from_py_sum.
Qed.

Lemma py_sum_app vs vs' : py_sum (vs ++ vs') = num_add (py_sum vs) (py_sum vs').
Proof.
  rewrite !py_sum_fold, fold_left_app. apply fold_add_from.
Qed.

Lemma py_sum_Permutation vs vs' : Permutation vs vs' -> py_sum vs = py_sum vs'.
Proof.
  intros HP. rewrite !py_sum_fold. apply fold_add_Permutation, HP.
Qed.

(** *** numpy's sum *)

Lemma unrolled_exact (n : nat) :
  forall vs r0 r1 r2 r3 r4 r5 r6 r7,
    (List.length vs <= n)%nat ->
    unrolled r0 r1 r2 r3 r4 r5 r6 r7 vs =
    num_add
      (num_add (num_add (num_add r0 r1) (num_add r2 r3))
               (num_add (num_add r4 r5) (num_add r6 r7)))
      (py_sum vs).
Proof.
  induction n as [|n IH]; intros vs r0 r1 r2 r3 r4 r5 r6 r7 Hn.
  - destruct vs; [|simpl in Hn; lia]. simpl.
    symmetry. apply num_add_zero_r.
  - destruct vs as [|a0 [|a1 [|a2 [|a3 [|a4 [|a5 [|a6 [|a7 rest]]]]]]]];
      try (cbn [unrolled]; rewrite py_sum_fold; apply fold_add_from).
    cbn [unrolled]. rewrite IH by (simpl in Hn; lia).
    rewrite (num_add_interchange r0 a0 r1 a1), (num_add_interchange r2 a2 r3 a3),
      (num_add_interchange r4 a4 r5 a5), (num_add_interchange r6 a6 r7 a7).
    rewrite (num_add_interchange (num_add r0 r1) (num_add a0 a1)),
      (num_add_interchange (num_add r4 r5) (num_add a4 a5)).
    rewrite (num_add_interchange
               (num_add (num_add r0 r1) (num_add r2 r3))
               (num_add (num_add a0 a1) (num_add a2 a3))).
    rewrite <- num_add_assoc. f_equal.
    rewrite !py_sum_cons, !num_add_assoc. reflexivity.
Qed.

Lemma block_sum_exact vs : block_sum vs = py_sum vs.
Proof.
  destruct vs as [|a0 [|a1 [|a2 [|a3 [|a4 [|a5 [|a6 [|a7 rest]]]]]]]];
    try (symmetry; apply py_sum_fold).
  cbn [block_sum]. rewrite (unrolled_exact (List.length rest)) by lia.
  rewrite !py_sum_cons, !num_add_assoc. reflexivity.
Qed.

Lemma pairwise_sum_exact (fuel : nat) vs : pairwise_sum fuel vs = py_sum vs.
Proof.
  revert vs. induction fuel as [|fuel IH]; intros vs; simpl.
  - apply block_sum_exact.
  - destruct (List.length vs <=? 128)%nat; [apply block_sum_exact|].
    rewrite !IH, <- py_sum_app, firstn_skipn. reflexivity.
Qed.

Lemma np_sum_exact vs : np_sum vs = py_sum vs.
Proof.
  destruct vs as [|v vs]; [reflexivity|].
  unfold np_sum. rewrite pairwise_sum_exact. apply num_add_zero_l.
Qed.

Lemma py_sum_fillna view :
  py_sum (map fillna (map Global_Sales view)) = py_sum (sales_of view).
Proof.
  induction view as [|r view IH]; simpl; [reflexivity|].
  destruct (Global_Sales r) as [v|]; simpl.
  - rewrite !py_sum_cons, IH. reflexivity.
  - rewrite py_sum_cons, IH. apply num_add_zero_l.
Qed.

(** The total is the sum of the sales that are present. *)
Lemma total_sales_exact view : total_sales view = py_sum (sales_of view).
Proof.
  unfold total_sales, nansum. rewrite np_sum_exact. apply py_sum_fillna.
Qed.

Lemma total_sales_Permutation view view' :
  Permutation view view' -> total_sales view = total_sales view'.
Proof.
  intros HP. rewrite !total_sales_exact.
  apply py_sum_Permutation, sales_of_Permutation, HP.
Qed.

Lemma sum_values_py_sum {K : Type} (m : list (K * V)) :
  sum_values m = py_sum (map snd m).
Proof. symmetry. apply py_sum_fold. Qed.

Lemma sum_values_Permutation {K : Type} (m m' : list (K * V)) :
  Permutation m m' -> sum_values m = sum_values m'.
Proof.
  intros HP. unfold sum_values. apply fold_add_Permutation, Permutation_map, HP.
Qed.
End ExactSums.

(** ** The compensated sum in exact arithmetic

    With exact addition and subtraction the compensation of a group sum
    stays at zero: the compensated sum is the plain sum. *)

Section CompensatedSums.
Context {V : Type} `{Number V} `{!ExactAdd V} `{!ExactSub V}.
Implicit Types (a b c d s v : V) (vs : list V) (view : Table V).

Lemma num_sub_zero_r a : num_sub a num_zero = a.
Proof.
  rewrite <- (num_add_zero_l a) at 1. apply num_sub_add.
Qed.

Lemma num_sub_diag a : num_sub a a = num_zero.
Proof.
  rewrite <- (num_add_zero_r a) at 1. apply num_sub_add.
Qed.

Lemma kahan_add_exact s v : kahan_add (s, num_zero) v = (num_add s v, num_zero).
Proof.
  unfold kahan_add. rewrite num_sub_zero_r, num_sub_add, num_sub_diag.
  destruct (num_isnan num_zero); reflexivity.
Qed.

Lemma compensated_from_exact s vs :
  compensated_from s num_zero vs = sum_from s vs.
Proof.
  revert s. induction vs as [|v vs IH]; intros s; simpl; [reflexivity|].
  rewrite num_sub_zero_r, num_sub_add, num_sub_diag.
  destruct (num_isnan num_zero); apply IH.
Qed.

Lemma compensated_sum_exact vs : compensated_sum vs = py_sum vs.
Proof. apply compensated_from_exact. Qed.

Section Grouped.
Context {K : Type} (cmp : K -> K -> comparison).
Variable key : Row Z V -> option K.

Abbreviation settled :=
  (Forall (fun e : K * (V * V) => snd (snd e) = num_zero)).

Abbreviation running acc :=
  (py_sum (map (fun e : K * (V * V) => fst (snd e)) acc)).

Lemma bump_exact s (c : option V) :
  bump (s, num_zero) c =
  (match c with Some v => num_add s v | None => s end, num_zero).
Proof. destruct c; [apply kahan_add_exact | reflexivity]. Qed.

Lemma upsert_exact (k : K) (c : option V) (acc : list (K * (V * V))) :
  settled acc ->
  settled (upsert cmp k c acc)
  /\ running (upsert cmp k c acc) =
     match c with
     | Some v => num_add (running acc) v
     | None => running acc
     end.
Proof.
  induction acc as [|[k' [s e]] rest IH]; cbn [upsert]; intros HF.
  - rewrite bump_exact. cbn [map fst snd].
    split; [constructor; [reflexivity | constructor]|].
    rewrite py_sum_cons. change (py_sum []) with (@num_zero V _).
    rewrite num_add_zero_r. destruct c; reflexivity.
  - inversion HF as [|? ? He Hrest]; subst. cbn [snd] in He. subst e.
    destruct (cmp k k').
    + rewrite bump_exact. cbn [map fst snd].
      split; [constructor; [reflexivity | exact Hrest]|].
      rewrite !py_sum_cons.
      destruct c as [v|]; [apply num_add_swap | reflexivity].
    + rewrite bump_exact. cbn [map fst snd].
      split; [constructor; [reflexivity | exact HF]|].
      rewrite !py_sum_cons.
      destruct c as [v|]; rewrite num_add_zero_l; [apply num_add_comm | reflexivity].
    + destruct (IH Hrest) as [IH1 IH2]. cbn [map fst snd].
      split; [constructor; [reflexivity | exact IH1]|].
      rewrite !py_sum_cons, IH2.
      destruct c as [v|]; [apply num_add_assoc | reflexivity].
Qed.

Lemma fold_step_exact view (acc : list (K * (V * V))) :
  settled acc ->
  running
    (fold_left
       (fun acc r =>
          match key r with
          | Some k => upsert cmp k (Global_Sales r) acc
          | None => acc
          end)
       view acc) =
  num_add (running acc) (py_sum (sales_of (filter (has_key key) view))).
Proof.
  revert acc. induction view as [|r view IH]; simpl; intros acc HF.
  - symmetry. apply num_add_zero_r.
  - unfold has_key at 1. destruct (key r) as [k|]; [|apply IH; exact HF].
    destruct (upsert_exact k (Global_Sales r) acc HF) as [HF' E].
    rewrite (IH _ HF'), E. simpl.
    destruct (Global_Sales r) as [v|]; [|reflexivity].
    rewrite py_sum_cons. symmetry. apply num_add_assoc.
Qed.

(** The grouped sums add up to the total of the rows that have a key. *)
Lemma sum_values_groupby_sum view :
  sum_values (groupby_sum cmp key view) =
  total_sales (filter (has_key key) view).
Proof.
  rewrite sum_values_py_sum, total_sales_exact. unfold groupby_sum, group_states.
  rewrite map_map. simpl.
  rewrite (fold_step_exact view []) by constructor.
  apply num_add_zero_l.
Qed.

Lemma filter_has_key view :
  (forall r, In r view -> key r <> None) -> filter (has_key key) view = view.
Proof.
  induction view as [|r view IH]; simpl; intros Hkey; [reflexivity|].
  unfold has_key at 1. destruct (key r) eqn:E.
  - f_equal. apply IH. intros r' Hr'. apply Hkey. right. exact Hr'.
  - exfalso. apply (Hkey r); [left; reflexivity | exact E].
Qed.

(** The grouped sums do not depend on the order of the rows. *)
Lemma groupby_sum_Permutation `{!KeyOrder cmp} view view' :
  Permutation view view' ->
  groupby_sum cmp key view = groupby_sum cmp key view'.
Proof.
  intros HP.
  apply (key_sorted_ext cmp); try apply groupby_sum_sorted; try assumption.
  intros [k s]. rewrite !groupby_sum_In by assumption.
  assert (Hs : compensated_sum (sales_of (group_rows cmp key k view)) =
               compensated_sum (sales_of (group_rows cmp key k view'))).
  { rewrite !compensated_sum_exact. apply py_sum_Permutation.
    apply sales_of_Permutation, filter_Permutation, HP. }
  rewrite Hs.
  assert (Hx : (exists r, In r view /\ key r = Some k) <->
               (exists r, In r view' /\ key r = Some k)).
  { split; intros [r [Hin Hr]]; exists r; (split; [|exact Hr]).
    - eapply Permutation_in; [exact HP | exact Hin].
    - eapply Permutation_in; [apply Permutation_sym; exact HP | exact Hin]. }
  rewrite Hx. reflexivity.
Qed.
End Grouped.
End CompensatedSums.

(** ** The three series *)

Lemma is_Eq_Z_compare (a b : Z) : is_Eq (Z.compare a b) = Z.eqb a b.
Proof.
  destruct (Z.eqb_spec a b) as [->|N].
  - rewrite Z.compare_refl. reflexivity.
  - destruct (Z.compare_spec a b); try reflexivity. contradiction.
Qed.


Section SeriesFacts.
Context {V : Type} `{Number V}.
Implicit Types (df view : Table V) (C : Criteria) (r : Row Z V).

Lemma group_rows_year y view :
  group_rows Z.compare (fun r => Some (Year r)) y view = rows_of_year y view.
Proof.
  unfold group_rows, rows_of_year. apply filter_ext. intros r.
  unfold in_group. apply is_Eq_Z_compare.
Qed.


(** C7.  The series by year has its years in strictly ascending order,
    hence each at most once; a year is in it exactly when some row of the
    view has that year, so a year without rows has no entry; and the value
    at a year is the sum of the sales of the rows of that year: their
    compensated sum, which in exact arithmetic is their plain sum. *)
Theorem sales_over_time_series view :
  StronglySorted Z.lt (map fst (sales_over_time view))
  /\ NoDup (map fst (sales_over_time view))
  /\ (forall y, In y (map fst (sales_over_time view)) <->
        exists r, In r view /\ Year r = y)
  /\ (forall y s, In (y, s) (sales_over_time view) <->
        (exists r, In r view /\ Year r = y)
        /\ s = compensated_sum (sales_of (rows_of_year y view)))
  /\ (ExactAdd V -> ExactSub V ->
      forall y s, In (y, s) (sales_over_time view) ->
        s = py_sum (sales_of (rows_of_year y view))).
Proof.
  unfold sales_over_time.
  pose proof (groupby_sum_sorted Z.compare (fun r => Some (Year r)) view) as HS.
  apply (key_sorted_keys Z.compare) in HS.
  assert (HIn : forall y s,
    In (y, s) (groupby_sum Z.compare (fun r => Some (Year r)) view) <->
    (exists r, In r view /\ Year r = y)
    /\ s = compensated_sum (sales_of (rows_of_year y view))).
  { intros y s. rewrite groupby_sum_In by typeclasses eauto.
    rewrite group_rows_year.
    assert (Hx : (exists r, In r view /\ Some (Year r) = Some y) <->
                 (exists r, In r view /\ Year r = y)).
    { split; intros [r [Hin Hr]]; exists r; split; auto; congruence. }
    rewrite Hx. reflexivity. }
  split; [exact HS|].
  split; [apply (sorted_keys_NoDup Z.compare); exact HS|].
  split; [|split; [exact HIn|]].
  - intros y. rewrite in_map_iff. split.
    + intros [[y' s] [Hy Hin]]. simpl in Hy. subst y'.
      apply HIn in Hin. tauto.
    + intros Hr. eexists (y, _). split; [reflexivity|].
      apply HIn. split; [exact Hr | reflexivity].
  - intros EA ES y s Hin. apply HIn in Hin. destruct Hin as [_ ->].
    apply compensated_sum_exact.
Qed.



(** ** Empty selections *)

Lemma filter_none {A : Type} (p : A -> bool) (l : list A) :
  (forall x, p x = false) -> filter p l = [].
Proof.
  intros Hp. induction l as [|x l IH]; simpl; [reflexivity|].
  rewrite Hp. exact IH.
Qed.

(** C4.  With no genre selected, or no platform selected, the filtered
    table is empty whatever the table is: the count is 0, the total is
    zero, the three series are empty, and the page shows the warning in
    place of the charts. *)
Theorem empty_selection_empty_view (kind : SortKind V string) df C :
  Permutes kind ->
  selected_genres C = [] \/ selected_platforms C = [] ->
  filtered_df df C = []
  /\ num_games (filtered_df df C) = 0%nat
  /\ total_sales (filtered_df df C) = num_zero
  /\ sales_over_time (filtered_df df C) = []
  /\ sales_by_genre kind (filtered_df df C) = []
  /\ sales_by_platform kind (filtered_df df C) = []
  /\ charts (page kind df C) = NoDataWarning.
Proof.
  intros HP Hsel.
  assert (E : filtered_df df C = []).
  { apply filter_none. intros r. unfold mask.
    destruct Hsel as [-> | ->]; simpl.
    - destruct (Genre r); reflexivity.
    - destruct (Platform r); simpl; rewrite ?andb_false_r; reflexivity. }
  unfold page. rewrite E.
  unfold sales_by_genre, sales_by_platform, sort_values_desc. simpl.
  rewrite (Permutes_nil kind HP). repeat split; reflexivity.
Qed.
End SeriesFacts.

(** ** The total and the count *)

Section MetricFacts.
Context {V : Type} `{Number V} `{!ExactAdd V}.
Implicit Types (df view : Table V) (C : Criteria) (r : Row Z V).

(** C5, in exact arithmetic.  The total of a view is the sum of the sales
    of its rows, a row without a sales cell adding nothing; the count is
    the number of its rows; the total of the empty view is zero and its
    count 0.  Both are total functions: no table and no selection makes
    them fail. *)
Theorem total_sales_is_sum view :
  total_sales view = py_sum (sales_of view)
  /\ num_games view = List.length view
  /\ (forall df C, view = filtered_df df C ->
        total_sales view = sum_where (mask C) df
        /\ num_games view = count_where (mask C) df)
  /\ total_sales (@nil (Row Z V)) = num_zero
  /\ num_games (@nil (Row Z V)) = 0%nat.
Proof.
  split; [apply total_sales_exact|].
  split; [reflexivity|].
  split; [|split; reflexivity].
  intros df C ->. split.
  - rewrite total_sales_exact. unfold sum_where, py_sum, filtered_df.
    generalize (@num_zero V _).
    induction df as [|r df IH]; simpl; intros z; [reflexivity|].
    destruct (mask C r); simpl; [|apply IH].
    destruct (Global_Sales r); simpl; apply IH.
  - unfold num_games, count_where, filtered_df.
    rewrite <- (Nat.add_0_l (List.length (filter (mask C) df))).
    generalize 0%nat.
    induction df as [|r df IH]; simpl; intros n; [lia|].
    destruct (mask C r); simpl; rewrite <- IH; lia.
Qed.
End MetricFacts.

(** ** The groups partition the view *)

Section PartitionFacts.
Context {V : Type} `{Number V}.
Implicit Types (df view : Table V) (C : Criteria) (r : Row Z V).

Lemma filtered_df_Genre df C r : In r (filtered_df df C) -> Genre r <> None.
Proof.
  unfold filtered_df. rewrite filter_In, mask_true.
  intros [_ [[g [E _]] _]]. congruence.
Qed.

Lemma filtered_df_Platform df C r : In r (filtered_df df C) -> Platform r <> None.
Proof.
  unfold filtered_df. rewrite filter_In, mask_true.
  intros [_ [_ [[p [E _]] _]]]. congruence.
Qed.

Lemma sorted_series_key (kind : SortKind V string)
  (key : Row Z V -> option string) view k :
  Permutes kind ->
  (In k (map fst (sort_values_desc kind (groupby_sum String.compare key view)))
   <-> exists r, In r view /\ key r = Some k).
Proof.
  intros HP. rewrite <- (groupby_sum_key String.compare key view k).
  pose proof (Permutation_map fst (sort_values_desc_Permutation kind
                (groupby_sum String.compare key view) HP)) as P.
  split; apply Permutation_in; [exact P | apply Permutation_sym; exact P].
Qed.

Lemma sorted_series_NoDup (kind : SortKind V string)
  (key : Row Z V -> option string) view :
  Permutes kind ->
  NoDup (map fst (sort_values_desc kind (groupby_sum String.compare key view))).
Proof.
  intros HP.
  eapply Permutation_NoDup;
    [apply Permutation_sym, Permutation_map, sort_values_desc_Permutation, HP|].
  apply groupby_sum_NoDup. typeclasses eauto.
Qed.

(** C6, as the code has it.  In any view, every row has the entry of its
    year in the series by year, every row that has a genre has the entry of
    its genre in the series by genre, and every row that has a platform the
    entry of its platform in the series by platform; the keys of a series
    are distinct, so such a row is counted in exactly one group.  In exact
    arithmetic the values of the series by year add up to the total; those
    of the series by genre add up to the total of the rows that have a
    genre, which is the total when every row has one; likewise by
    platform. *)
Theorem group_sums_add_up_to_total (kind : SortKind V string) view :
  Permutes kind ->
  (forall r, In r view ->
     (exists sy, In (Year r, sy) (sales_over_time view))
     /\ (forall g, Genre r = Some g ->
           exists sg, In (g, sg) (sales_by_genre kind view))
     /\ (forall p, Platform r = Some p ->
           exists sp, In (p, sp) (sales_by_platform kind view)))
  /\ NoDup (map fst (sales_over_time view))
  /\ NoDup (map fst (sales_by_genre kind view))
  /\ NoDup (map fst (sales_by_platform kind view))
  /\ (ExactAdd V -> ExactSub V ->
      sum_values (sales_over_time view) = total_sales view
      /\ sum_values (sales_by_genre kind view)
         = total_sales (filter (has_key Genre) view)
      /\ sum_values (sales_by_platform kind view)
         = total_sales (filter (has_key Platform) view)
      /\ ((forall r, In r view -> Genre r <> None) ->
          sum_values (sales_by_genre kind view) = total_sales view)
      /\ ((forall r, In r view -> Platform r <> None) ->
          sum_values (sales_by_platform kind view) = total_sales view)).
Proof.
  intros HP. unfold sales_by_genre, sales_by_platform, sales_over_time.
  pose proof (fun s => sort_values_desc_Permutation kind s HP) as HS.
  split.
  { intros r Hin. split; [|split].
    - apply (groupby_sum_covers Z.compare (fun r => Some (Year r)) view r);
        [exact Hin | reflexivity].
    - intros g Eg.
      destruct (groupby_sum_covers String.compare Genre view r g Hin Eg) as [sg Hg].
      exists sg. eapply Permutation_in; [apply Permutation_sym, HS | exact Hg].
    - intros p Ep.
      destruct (groupby_sum_covers String.compare Platform view r p Hin Ep)
        as [sp Hp].
      exists sp. eapply Permutation_in; [apply Permutation_sym, HS | exact Hp]. }
  split; [apply groupby_sum_NoDup; typeclasses eauto|].
  split; [apply sorted_series_NoDup, HP|].
  split; [apply sorted_series_NoDup, HP|].
  intros EA ES.
  rewrite !(sum_values_Permutation _ _ (HS _)), !sum_values_groupby_sum.
  split; [|split; [reflexivity | split; [reflexivity|]]].
  - f_equal. apply filter_has_key. discriminate.
  - split; intros Hk; f_equal; apply filter_has_key; exact Hk.
Qed.
End PartitionFacts.

(** ** The order of the rows *)

Section OrderFacts.
Context {V : Type} `{Number V} `{!ExactAdd V} `{!ExactSub V}.
Implicit Types (df view : Table V) (C : Criteria) (r : Row Z V).

(** C8, in exact arithmetic.  Reordering the rows of the table changes
    neither the total, nor the count, nor any of the three series, entry by
    entry and in the same order. *)
Theorem aggregates_order_independent (kind : SortKind V string) df df' C :
  Permutation df df' ->
  total_sales (filtered_df df' C) = total_sales (filtered_df df C)
  /\ num_games (filtered_df df' C) = num_games (filtered_df df C)
  /\ sales_over_time (filtered_df df' C) = sales_over_time (filtered_df df C)
  /\ sales_by_genre kind (filtered_df df' C)
     = sales_by_genre kind (filtered_df df C)
  /\ sales_by_platform kind (filtered_df df' C)
     = sales_by_platform kind (filtered_df df C).
Proof.
  intros HP.
  assert (HF : Permutation (filtered_df df' C) (filtered_df df C)).
  { apply filter_Permutation, Permutation_sym, HP. }
  split; [apply total_sales_Permutation, HF|].
  split; [apply Permutation_length, HF|].
  unfold sales_over_time, sales_by_genre, sales_by_platform.
  split; [apply groupby_sum_Permutation; [typeclasses eauto | exact HF]|].
  split; f_equal; apply groupby_sum_Permutation;
    try typeclasses eauto; exact HF.
Qed.
End OrderFacts.

(** ** Entries of equal value

    With a stable sort the entries of equal value come out in ascending
    key order. *)

Section Stability.
Context {V : Type} `{Number V} `{!TotalLeb V}.
Context {K : Type} (cmp : K -> K -> comparison) `{!KeyOrder cmp}.

Abbreviation ascending_then_key_down :=
  (fun a b : K * V => ascending a b /\ (tie a b -> cmp (fst b) (fst a) = Lt)).

Lemma StronglySorted_weaken {A : Type} (R R' : A -> A -> Prop) (l : list A) :
  (forall a b, R a b -> R' a b) -> StronglySorted R l -> StronglySorted R' l.
Proof.
  intros HR. induction 1 as [|x l HS IH HF]; constructor.
  - exact IH.
  - eapply Forall_impl; [apply HR | exact HF].
Qed.

Lemma insert_stable (x : K * V) (l : list (K * V)) :
  num_isnan (snd x) = false ->
  Forall (fun e => num_isnan (snd e) = false) l ->
  StronglySorted ascending_then_key_down l ->
  Forall (fun z => cmp (fst z) (fst x) = Lt) l ->
  StronglySorted ascending_then_key_down
    (insert_by (fun a b => num_leb a b) x l).
Proof.
  intros Hx Hl. induction 1 as [|y l HS IH HF]; simpl; intros Hk.
  - constructor; constructor.
  - inversion Hk as [|? ? Hy Hkl]; subst.
    inversion Hl as [|? ? Hny Hnl]; subst.
    destruct (num_leb (snd x) (snd y)) eqn:E.
    + constructor; [constructor; assumption|].
      constructor; [split; [exact E | intros _; exact Hy]|].
      rewrite Forall_forall in *. intros z Hz. split.
      * unfold ascending. eapply num_leb_trans; [exact E | apply HF; exact Hz].
      * intros _. apply Hkl. exact Hz.
    + constructor; [apply IH; assumption|].
      eapply Permutation_Forall; [apply Permutation_sym, insert_by_Permutation|].
      constructor; [|exact HF].
      split; [apply num_leb_false; assumption|].
      intros [_ T]. congruence.
Qed.

Lemma stable_sort_keeps_key_order (l : list (K * V)) :
  Forall (fun e => num_isnan (snd e) = false) l ->
  StronglySorted (fun a b => cmp (fst b) (fst a) = Lt) l ->
  StronglySorted ascending_then_key_down (stable_sort l).
Proof.
  intros Hl. induction 1 as [|x l HS IH HF]; simpl.
  - constructor.
  - inversion Hl as [|? ? Hx Hl']; subst.
    apply insert_stable; [exact Hx | | apply IH; exact Hl' |].
    + eapply Permutation_Forall; [apply Permutation_sym, stable_sort_Permutes|].
      exact Hl'.
    + eapply Permutation_Forall; [apply Permutation_sym, stable_sort_Permutes|].
      exact HF.
Qed.

(** Sorting a series whose keys ascend and that holds no NaN, with the
    stable sort: descending values, and ascending keys among equal
    values. *)
Lemma stable_sort_ties_by_key (s : list (K * V)) :
  Forall (fun e => num_isnan (snd e) = false) s ->
  key_sorted cmp s ->
  StronglySorted (descending_then_key cmp) (sort_values_desc stable_sort s).
Proof.
  intros Hs HS. unfold sort_values_desc.
  destruct (filter_notna_all s Hs) as [-> ->]. rewrite app_nil_r.
  apply (StronglySorted_weaken (fun a b => ascending_then_key_down b a)).
  - intros a b [Hab Ht]. split; [exact Hab|].
    intros [T1 T2]. apply Ht. split; assumption.
  - apply (StronglySorted_rev ascending_then_key_down).
    apply stable_sort_keeps_key_order; [apply Forall_rev; exact Hs|].
    apply (StronglySorted_rev (fun a b => cmp (fst a) (fst b) = Lt)). exact HS.
Qed.
End Stability.

Lemma sales_by_genre_stable_ties {V : Type} `{Number V} `{!TotalLeb V}
  (view : Table V) :
  (forall v : V, num_isnan v = false) ->
  StronglySorted (descending_then_key String.compare)
    (sales_by_genre stable_sort view)
  /\ StronglySorted (descending_then_key String.compare)
       (sales_by_platform stable_sort view).
Proof.
  intros Hn.
  split; apply stable_sort_ties_by_key; try typeclasses eauto;
    try (apply Forall_forall; intros e _; apply Hn);
    apply groupby_sum_sorted; typeclasses eauto.
Qed.

(** *** numpy's quicksort on entries of equal value *)

(** Up to 17 entries are sorted by insertion. *)
Lemma quicksort_short {V : Type} `{Number V} {K : Type} (a : list (K * V)) :
  (List.length a <= 17)%nat -> quicksort a = insertion_sort a.
Proof.
  intros Hn. destruct a as [|x a]; [reflexivity|].
  unfold quicksort. cbn [sort_range List.length].
  assert (Hd : (2 * Z.log2 (Z.of_nat (S (List.length a))) <? 0) = false).
  { apply Z.ltb_ge. pose proof (Z.log2_nonneg (Z.of_nat (S (List.length a)))). lia. }
  rewrite Hd. simpl andb.
  assert (Hs : (16 <? S (List.length a) - 1 - 0)%nat = false).
  { apply Nat.ltb_ge. simpl in Hn. lia. }
  rewrite Hs. unfold on_range.
  replace (S (List.length a) - 1 + 1 - 0)%nat with (List.length (x :: a))
    by (simpl; lia).
  replace (S (List.length a) - 1 + 1)%nat with (List.length (x :: a))
    by (simpl; lia).
  cbn [firstn skipn app].
  rewrite firstn_all, skipn_all, app_nil_r. reflexivity.
Qed.

(** Two genres of equal sum: "Action" comes before "Shooter". *)
Lemma quicksort_two_ties_by_key :
  sales_by_genre quicksort (filtered_df tied_df tied_criteria)
  = [("Action", 100); ("Shooter", 100)].
Proof. reflexivity. Qed.



(** ** The scenario *)

(** C9.  The scenario of the specification, on float64: the filter keeps the
    first row only; the total is 1.5, the count 1, and each series has the
    single entry of that row. *)
Theorem scenario_filter_aggregate (kind : SortKind float string) :
  Permutes kind ->
  filtered_df scenario_df scenario_criteria
    = [ mkRow None (Some "PS2") 2005 (Some "Sports") (Some "EA") (Some 1.5%float) ]
  /\ total_sales (filtered_df scenario_df scenario_criteria) = 1.5%float
  /\ num_games (filtered_df scenario_df scenario_criteria) = 1%nat
  /\ sales_by_genre kind (filtered_df scenario_df scenario_criteria)
     = [("Sports", 1.5%float)]
  /\ sales_by_platform kind (filtered_df scenario_df scenario_criteria)
     = [("PS2", 1.5%float)]
  /\ sales_over_time (filtered_df scenario_df scenario_criteria)
     = [(2005, 1.5%float)].
Proof.
  intros HP.
  assert (E : filtered_df scenario_df scenario_criteria
    = [ mkRow None (Some "PS2") 2005 (Some "Sports") (Some "EA") (Some 1.5%float) ])
    by reflexivity.
  rewrite E. unfold sales_by_genre, sales_by_platform, sort_values_desc.
  repeat split; try reflexivity.
  - change (rev (kind (rev [("Sports", 1.5%float)])) ++ []
            = [("Sports", 1.5%float)])%list.
    simpl. rewrite (Permutes_singleton kind _ HP). reflexivity.
  - change (rev (kind (rev [("PS2", 1.5%float)])) ++ []
            = [("PS2", 1.5%float)])%list.
    simpl. rewrite (Permutes_singleton kind _ HP). reflexivity.
Qed.

(** The scenario with the stable sort. *)
Lemma scenario_filter_aggregate_witness :
  Permutes (stable_sort (V:=float) (K:=string))
  /\ sales_by_genre stable_sort (filtered_df scenario_df scenario_criteria)
     = [("Sports", 1.5%float)].
Proof.
  split; [apply stable_sort_Permutes|].
  apply (scenario_filter_aggregate stable_sort stable_sort_Permutes).
Defined.

(** ** Float64 rounding *)

(** C5 as stated fails on float64: ten games with sales of 0.1 each have
    the total 1.0, and the sum of their sales taken one after the other is
    0.9999999999999999. *)
Lemma float_total_is_not_the_row_order_sum :
  num_games (filtered_df ten_tenths_df two_genres) = 10%nat
  /\ total_sales (filtered_df ten_tenths_df two_genres) = 1.0%float
  /\ py_sum (sales_of (filtered_df ten_tenths_df two_genres))
     = 0.9999999999999999%float
  /\ PrimFloat.eqb 1.0%float 0.9999999999999999%float = false.
Proof. repeat split; vm_compute; reflexivity. Qed.

(** On exact amounts the total is the sum of the sales. *)
Lemma total_sales_is_sum_witness :
  total_sales (filtered_df exact_df exact_criteria)
    = py_sum (sales_of (filtered_df exact_df exact_criteria))
  /\ total_sales (filtered_df exact_df exact_criteria) = 4054.
Proof.
  split; [|reflexivity].
  apply (total_sales_is_sum (filtered_df exact_df exact_criteria)).
Defined.

(** The group sums are compensated: the three sales 0.1, 0.2 and 0.3 of
    one genre have the group sum 0.6, and the total 0.6000000000000001. *)
Lemma float_group_sum_is_compensated :
  sales_by_genre stable_sort (filtered_df tenths_df two_genres)
    = [("Action", 0.6%float)]
  /\ total_sales (filtered_df tenths_df two_genres) = 0.6000000000000001%float.
Proof. split; vm_compute; reflexivity. Qed.

(** C6 as stated fails on float64: the total of the three rows is
    3.3000000000000003, the series by genre holds 1.76 and 1.54, and these
    add up to 3.3. *)
Lemma float_group_sums_miss_total :
  total_sales (filtered_df rounding_df two_genres) = 3.3000000000000003%float
  /\ sales_by_genre stable_sort (filtered_df rounding_df two_genres)
     = [("Sports", 1.76%float); ("Action", 1.54%float)]
  /\ sum_values (sales_by_genre stable_sort (filtered_df rounding_df two_genres))
     = 3.3%float
  /\ PrimFloat.eqb 3.3000000000000003%float 3.3%float = false.
Proof. repeat split; vm_compute; reflexivity. Qed.

(** A row without a genre is in no group of the series by genre: the
    series adds up to the total of the other rows. *)
Lemma rows_without_genre_are_in_no_group :
  sales_by_genre stable_sort genre_missing_view = [("Action", 100)]
  /\ sum_values (sales_by_genre stable_sort genre_missing_view) = 100
  /\ total_sales genre_missing_view = 150
  /\ sum_values (sales_over_time genre_missing_view) = 150.
Proof. repeat split; reflexivity. Qed.

(** On exact amounts the three series add up to the total. *)
Lemma group_sums_add_up_to_total_witness :
  Permutes (stable_sort (V:=Z) (K:=string))
  /\ sum_values (sales_over_time (filtered_df exact_df exact_criteria))
     = total_sales (filtered_df exact_df exact_criteria)
  /\ sum_values (sales_by_genre stable_sort (filtered_df exact_df exact_criteria))
     = total_sales (filtered_df exact_df exact_criteria)
  /\ sum_values (sales_by_platform stable_sort (filtered_df exact_df exact_criteria))
     = total_sales (filtered_df exact_df exact_criteria)
  /\ NoDup (map fst (sales_by_genre stable_sort (filtered_df exact_df exact_criteria))).
Proof.
  split; [apply stable_sort_Permutes|].
  pose proof (group_sums_add_up_to_total stable_sort
                (filtered_df exact_df exact_criteria) stable_sort_Permutes) as W.
  destruct W as [_ [_ [N [_ W]]]].
  destruct (W Z_ExactAdd Z_ExactSub) as [Wy [_ [_ [Wg Wp]]]].
  split; [exact Wy|].
  split; [apply Wg, filtered_df_Genre|].
  split; [apply Wp, filtered_df_Platform | exact N].
Defined.

(** C8 as stated fails on float64: the same three rows in two orders have
    the totals 0.6000000000000001 and 0.6. *)
Lemma float_total_depends_on_order :
  Permutation tenths_df (rev tenths_df)
  /\ total_sales (filtered_df tenths_df two_genres) = 0.6000000000000001%float
  /\ total_sales (filtered_df (rev tenths_df) two_genres) = 0.6%float
  /\ PrimFloat.eqb 0.6000000000000001%float 0.6%float = false.
Proof.
  split; [apply Permutation_rev|].
  repeat split; vm_compute; reflexivity.
Qed.

(** On exact amounts the reversed table has the same aggregates. *)
Lemma aggregates_order_independent_witness :
  Permutation exact_df (rev exact_df)
  /\ total_sales (filtered_df (rev exact_df) exact_criteria)
     = total_sales (filtered_df exact_df exact_criteria)
  /\ sales_by_genre stable_sort (filtered_df (rev exact_df) exact_criteria)
     = sales_by_genre stable_sort (filtered_df exact_df exact_criteria).
Proof.
  split; [apply Permutation_rev|].
  pose proof (aggregates_order_independent stable_sort exact_df (rev exact_df)
                exact_criteria (Permutation_rev exact_df)) as W.
  split; [apply W | apply W].
Defined.
(** ** Loading, on the example files *)

(** C3 as stated fails: the second row's year is the text "20x5"; the row
    is not dropped, [load_data] raises and the app stops. *)
Lemma malformed_year_raises :
  load_data csv_bad_year = Raise ValueError
  /\ load_or_stop (Ok csv_bad_year) = Stopped ValueError.
Proof. split; reflexivity. Qed.

(** The row with only a year and a publisher is kept, its missing cells
    still missing; the rows without a year or a publisher are gone. *)
Lemma rows_missing_other_fields_survive_witness :
  load_data csv_missing_cells
    = Ok [ mkRow None None 2006 None (Some "Nintendo") None ]
  /\ exists c,
       In c [ mkRow None None 2006 None (Some "Nintendo") (@None float) ]
       /\ Name c = None /\ Genre c = None /\ Platform c = None
       /\ Global_Sales c = None /\ Publisher c = Some "Nintendo"
       /\ astype_int (YFloat 2006.0%float) = Ok (Year c).
Proof.
  split; [reflexivity|].
  apply (proj1 (rows_missing_other_fields_survive csv_missing_cells
                  [ mkRow None None 2006 None (Some "Nintendo") None ]
                  eq_refl)
           (mkRow None None (YFloat 2006.0%float) None (Some "Nintendo") None)).
  - left. reflexivity.
  - reflexivity.
  - reflexivity.
Defined.

(** The scenario table with no genre selected. *)
Lemma empty_selection_empty_view_witness :
  Permutes (stable_sort (V:=float) (K:=string))
  /\ (selected_genres no_genre = [] \/ selected_platforms no_genre = [])
  /\ filtered_df scenario_df no_genre = []
  /\ charts (page stable_sort scenario_df no_genre) = NoDataWarning.
Proof.
  split; [apply stable_sort_Permutes|].
  split; [left; reflexivity|].
  pose proof (empty_selection_empty_view stable_sort scenario_df no_genre
                stable_sort_Permutes (or_introl eq_refl)) as W.
  split; apply W.
Defined.

(** * More of the script *)

(** ** Filters compose *)

Section FilterComposition.
Context {V : Type} `{Number V}.
Implicit Types (df view : Table V) (C : Criteria) (r : Row Z V).

Lemma filter_filter_comm {A : Type} (p q : A -> bool) (l : list A) :
  filter p (filter q l) = filter q (filter p l).
Proof.
  induction l as [|x l IH]; simpl; [reflexivity|].
  destruct (p x) eqn:Ep, (q x) eqn:Eq; simpl; rewrite ?Ep, ?Eq, IH; reflexivity.
Qed.

Lemma filter_filter_narrow {A : Type} (p q : A -> bool) (l : list A) :
  (forall x, In x l -> p x = true -> q x = true) ->
  filter p (filter q l) = filter p l.
Proof.
  induction l as [|x l IH]; simpl; intros Hpq; [reflexivity|].
  assert (IH' : filter p (filter q l) = filter p l).
  { apply IH. intros y Hy. apply Hpq. right. exact Hy. }
  destruct (q x) eqn:Eq; simpl.
  - rewrite IH'. reflexivity.
  - destruct (p x) eqn:Ep; [|exact IH'].
    rewrite (Hpq x (or_introl eq_refl) Ep) in Eq. discriminate.
Qed.

Lemma Subsequence_refl {A : Type} (l : list A) : Subsequence l l.
Proof. induction l; constructor; assumption. Qed.

(** X1.  Filtering twice is filtering by both selections, in either order:
    a row is in the result exactly when it is in the table and passes both
    masks; and filtering again by the same selection changes nothing. *)
Theorem filters_compose df C1 C2 :
  filtered_df (filtered_df df C1) C2 = filtered_df (filtered_df df C2) C1
  /\ (forall r, In r (filtered_df (filtered_df df C1) C2) <->
        In r df
        /\ (genre_selected C1 r /\ platform_selected C1 r /\ year_selected C1 r)
        /\ (genre_selected C2 r /\ platform_selected C2 r /\ year_selected C2 r))
  /\ filtered_df (filtered_df df C1) C1 = filtered_df df C1.
Proof.
  unfold filtered_df. split; [apply filter_filter_comm|]. split.
  - intros r. rewrite !filter_In, !mask_true. tauto.
  - apply filter_filter_narrow. auto.
Qed.

(** X2.  Narrowing a selection: when the genres and platforms of [C] are
    among those of [C'] and the year range of [C] lies inside that of [C'],
    the rows kept by [C] are rows kept by [C'], in the same order, there are
    no more of them, and filtering the wider view by [C] gives the view of
    [C]. *)
Theorem narrower_selection_smaller_view df C C' :
  incl (selected_genres C) (selected_genres C') ->
  incl (selected_platforms C) (selected_platforms C') ->
  fst (selected_year_range C') <= fst (selected_year_range C) ->
  snd (selected_year_range C) <= snd (selected_year_range C') ->
  filtered_df (filtered_df df C') C = filtered_df df C
  /\ Subsequence (filtered_df df C) (filtered_df df C')
  /\ (num_games (filtered_df df C) <= num_games (filtered_df df C'))%nat.
Proof.
  intros Hg Hp Hlo Hhi.
  assert (E : filtered_df (filtered_df df C') C = filtered_df df C).
  { unfold filtered_df. apply filter_filter_narrow. intros r _.
    rewrite !mask_true. unfold genre_selected, platform_selected, year_selected.
    intros [[g [Eg Hin]] [[p [Ep Hip]] Hy]].
    split; [exists g; auto|]. split; [exists p; auto | lia]. }
  split; [exact E|].
  assert (S : Subsequence (filtered_df df C) (filtered_df df C')).
  { rewrite <- E. apply filter_Subsequence. }
  split; [exact S | apply Subsequence_length, S].
Qed.

(** X3.  A selection counts as a set: two selections with the same genres,
    the same platforms and the same year range, listed in any order and any
    number of times, keep the same rows. *)
Theorem selection_is_a_set df C C' :
  (forall g, In g (selected_genres C) <-> In g (selected_genres C')) ->
  (forall p, In p (selected_platforms C) <-> In p (selected_platforms C')) ->
  selected_year_range C = selected_year_range C' ->
  filtered_df df C = filtered_df df C'.
Proof.
  intros Hg Hp Hy. unfold filtered_df. apply filter_ext. intros r.
  destruct (mask C' r) eqn:E'.
  - apply mask_true. apply mask_true in E'.
    unfold genre_selected, platform_selected, year_selected in *.
    rewrite Hy. destruct E' as [[g [Eg Hin]] [[p [Ep Hip]] Hr]].
    split; [exists g; split; [exact Eg | apply Hg, Hin]|].
    split; [exists p; split; [exact Ep | apply Hp, Hip] | exact Hr].
  - destruct (mask C r) eqn:E; [|reflexivity].
    apply mask_true in E. rewrite <- E'. symmetry. apply mask_true.
    unfold genre_selected, platform_selected, year_selected in *.
    rewrite <- Hy. destruct E as [[g [Eg Hin]] [[p [Ep Hip]] Hr]].
    split; [exists g; split; [exact Eg | apply Hg, Hin]|].
    split; [exists p; split; [exact Ep | apply Hp, Hip] | exact Hr].
Qed.

(** X4.  A year range whose upper end is below its lower end keeps no
    row. *)
Theorem inverted_year_range_keeps_nothing df C :
  snd (selected_year_range C) < fst (selected_year_range C) ->
  filtered_df df C = [].
Proof.
  intros Hinv. apply filter_none. intros r.
  destruct (mask C r) eqn:E; [|reflexivity].
  apply mask_true in E. unfold year_selected in E. lia.
Qed.
End FilterComposition.

(** ** What the charts show *)

Section ChartFacts.
Context {V : Type} `{Number V}.
Implicit Types (df view : Table V) (C : Criteria) (r : Row Z V).


Lemma years_in_range_length (lo hi : Z) (ys : list Z) :
  NoDup ys -> (forall y, In y ys -> lo <= y <= hi) ->
  (List.length ys <= Z.to_nat (hi - lo + 1))%nat.
Proof.
  intros HN Hr.
  rewrite <- (length_seq (Z.to_nat (hi - lo + 1)) 0).
  rewrite <- (length_map (fun i => lo + Z.of_nat i)).
  apply NoDup_incl_length; [exact HN|].
  intros y Hy. apply Hr in Hy. apply in_map_iff.
  exists (Z.to_nat (y - lo)). split; [lia|].
  apply in_seq. lia.
Qed.

(** X6.  The charts show selected values only: every genre of the chart by
    genre is a selected genre, every platform of the chart by platform a
    selected platform, every year of the time series lies in the selected
    range; so there are at most as many bars as selected genres (platforms),
    and at most one point per year of the range. *)
Theorem charts_within_selection (kind : SortKind V string) df C :
  Permutes kind ->
  (forall g, In g (map fst (sales_by_genre kind (filtered_df df C))) ->
     In g (selected_genres C))
  /\ (forall p, In p (map fst (sales_by_platform kind (filtered_df df C))) ->
        In p (selected_platforms C))
  /\ (forall y, In y (map fst (sales_over_time (filtered_df df C))) ->
        fst (selected_year_range C) <= y <= snd (selected_year_range C))
  /\ (List.length (sales_by_genre kind (filtered_df df C))
      <= List.length (selected_genres C))%nat
  /\ (List.length (sales_by_platform kind (filtered_df df C))
      <= List.length (selected_platforms C))%nat
  /\ (List.length (sales_over_time (filtered_df df C))
      <= Z.to_nat (snd (selected_year_range C) - fst (selected_year_range C) + 1))%nat.
Proof.
  intros HP.
  assert (Hsel : forall r, In r (filtered_df df C) ->
            genre_selected C r /\ platform_selected C r /\ year_selected C r).
  { intros r Hin. unfold filtered_df in Hin. apply filter_In in Hin.
    apply mask_true, Hin. }
  assert (Gs : forall g, In g (map fst (sales_by_genre kind (filtered_df df C))) ->
            In g (selected_genres C)).
  { intros g Hg. apply sorted_series_key in Hg; [|exact HP].
    destruct Hg as [r [Hin Eg]]. destruct (Hsel r Hin) as [[g' [Eg' Hs]] _].
    congruence. }
  assert (Ps : forall p, In p (map fst (sales_by_platform kind (filtered_df df C))) ->
            In p (selected_platforms C)).
  { intros p Hp. apply sorted_series_key in Hp; [|exact HP].
    destruct Hp as [r [Hin Ep]]. destruct (Hsel r Hin) as [_ [[p' [Ep' Hs]] _]].
    congruence. }
  assert (Ys : forall y, In y (map fst (sales_over_time (filtered_df df C))) ->
            fst (selected_year_range C) <= y <= snd (selected_year_range C)).
  { intros y Hy. apply (groupby_sum_key Z.compare) in Hy.
    destruct Hy as [r [Hin Ey]]. destruct (Hsel r Hin) as [_ [_ Hr]].
    inversion Ey; subst y. exact Hr. }
  split; [exact Gs|]. split; [exact Ps|]. split; [exact Ys|].
  split; [|split].
  - rewrite <- (length_map fst). apply NoDup_incl_length; [|exact Gs].
    apply sorted_series_NoDup, HP.
  - rewrite <- (length_map fst). apply NoDup_incl_length; [|exact Ps].
    apply sorted_series_NoDup, HP.
  - rewrite <- (length_map fst). apply years_in_range_length; [|exact Ys].
    apply groupby_sum_NoDup. typeclasses eauto.
Qed.
End ChartFacts.

(** ** Totals under exact addition *)

Section MoreExactFacts.
Context {V : Type} `{Number V} `{!ExactAdd V}.
Implicit Types (df view : Table V) (C : Criteria) (r : Row Z V).

Lemma sales_of_present view :
  sales_of (filter (fun r => negb (isna (Global_Sales r))) view) = sales_of view.
Proof.
  induction view as [|r view IH]; simpl; [reflexivity|].
  destruct (Global_Sales r) eqn:E; simpl; rewrite ?E, IH; reflexivity.
Qed.

Lemma sales_of_all_missing view :
  (forall r, In r view -> Global_Sales r = None) -> sales_of view = [].
Proof.
  induction view as [|r view IH]; simpl; intros Hm; [reflexivity|].
  rewrite (Hm r (or_introl eq_refl)). apply IH.
  intros r' Hr'. apply Hm. right. exact Hr'.
Qed.

(** X7.  A row whose sales cell is missing is counted among the games but
    adds nothing to the total: the total is that of the rows with a sales
    cell; and a year all of whose rows miss their sales cell still has its
    point in the time series, at zero. *)
Theorem missing_sales_add_nothing view :
  total_sales view
    = total_sales (filter (fun r => negb (isna (Global_Sales r))) view)
  /\ num_games view
     = (num_games (filter (fun r => negb (isna (Global_Sales r))) view)
        + num_games (filter (fun r => isna (Global_Sales r)) view))%nat
  /\ (forall y,
        (exists r, In r view /\ Year r = y) ->
        (forall r, In r view -> Year r = y -> Global_Sales r = None) ->
        In (y, num_zero) (sales_over_time view)).
Proof.
  split; [|split].
  - rewrite !total_sales_exact, sales_of_present. reflexivity.
  - unfold num_games. induction view as [|r view IH]; simpl; [reflexivity|].
    destruct (Global_Sales r); simpl; lia.
  - intros y [r [Hin Hy]] Hmiss. unfold sales_over_time.
    apply groupby_sum_In; [typeclasses eauto|].
    split; [exists r; split; [exact Hin | congruence]|].
    rewrite group_rows_year, sales_of_all_missing; [reflexivity|].
    intros r' Hr'. apply filter_In in Hr'.
    destruct Hr' as [Hin' Hy']. apply Z.eqb_eq in Hy'.
    apply Hmiss; assumption.
Qed.

(** X8.  Two tables put end to end: the filtered view is the two filtered
    views end to end, the count is the sum of the two counts and the total
    the sum of the two totals. *)
Theorem appended_tables_add_up df df' C :
  filtered_df (df ++ df')%list C = (filtered_df df C ++ filtered_df df' C)%list
  /\ num_games (filtered_df (df ++ df')%list C)
     = (num_games (filtered_df df C) + num_games (filtered_df df' C))%nat
  /\ total_sales (filtered_df (df ++ df')%list C)
     = num_add (total_sales (filtered_df df C)) (total_sales (filtered_df df' C)).
Proof.
  assert (E : filtered_df (df ++ df')%list C
              = (filtered_df df C ++ filtered_df df' C)%list)
    by apply filter_app.
  split; [exact E|]. rewrite E. split.
  - unfold num_games. apply length_app.
  - rewrite !total_sales_exact, sales_of_app. apply py_sum_app.
Qed.
End MoreExactFacts.

(** ** More on loading *)

Section MoreLoadingFacts.
Context {V : Type}.
Implicit Types (csv : RawTable V) (df : Table V).

Lemma astype_int_column_converts (raw : RawTable V) :
  (forall r, In r raw -> exists y, astype_int (Year r) = Ok y) ->
  exists df, astype_int_column raw = Ok df.
Proof.
  induction raw as [|r raw IH]; simpl; intros Hc.
  - exists []. reflexivity.
  - destruct (Hc r (or_introl eq_refl)) as [y Ey]. rewrite Ey. simpl.
    destruct IH as [t Et]; [intros r' Hr'; apply Hc; right; exact Hr'|].
    rewrite Et. simpl. eexists. reflexivity.
Qed.

(** X9.  [load_data] returns a table exactly when the year of every row
    that has a year and a publisher converts to an integer; the app is then
    running on that table, and is stopped otherwise, as it is when the file
    cannot be read. *)
Theorem load_succeeds_iff_years_convert csv :
  ((exists df, load_data csv = Ok df) <->
     (forall r, In r csv -> isna_year (Year r) = false ->
        isna (Publisher r) = false -> exists y, astype_int (Year r) = Ok y))
  /\ (forall df, load_data csv = Ok df <-> load_or_stop (Ok csv) = Running df)
  /\ (forall e, load_data csv = Raise e <-> load_or_stop (Ok csv) = Stopped e)
  /\ (forall e, load_or_stop (@Raise (RawTable V) e) = Stopped e).
Proof.
  split; [|split; [|split]].
  - unfold load_data. split.
    + intros [df E] r Hin Hy Hp.
      assert (Hd : In r (dropna csv)) by (apply dropna_In; auto).
      destruct (Forall2_In_l _ _ _ _ (astype_int_column_Ok _ _ E) Hd)
        as [c [_ [Hc _]]].
      exists (Year c). exact Hc.
    + intros Hc. apply astype_int_column_converts.
      intros r Hr. apply dropna_In in Hr. destruct Hr as [Hin [Hy Hp]]. auto.
  - intros df. unfold load_or_stop. simpl.
    destruct (load_data csv); split; congruence.
  - intros e. unfold load_or_stop. simpl.
    destruct (load_data csv); split; congruence.
  - reflexivity.
Qed.

Lemma fits_int64_bounds (z : Z) :
  fits_int64 z = true <-> int64_min <= z <= int64_max.
Proof. unfold fits_int64. rewrite andb_true_iff, !Z.leb_le. tauto. Qed.

Lemma wrap_int64_fits (z : Z) : fits_int64 (wrap_int64 z) = true.
Proof.
  apply fits_int64_bounds. unfold wrap_int64, int64_min, int64_max.
  pose proof (Z.mod_pos_bound (z + 2 ^ 63) (2 ^ 64) eq_refl). lia.
Qed.

Lemma wrap_int64_id (z : Z) : fits_int64 z = true -> wrap_int64 z = z.
Proof.
  intros Hz. apply fits_int64_bounds in Hz. unfold int64_min, int64_max in Hz.
  unfold wrap_int64. rewrite Z.mod_small; lia.
Qed.

Lemma astype_int_fits (c : YearCell) (y : Z) :
  astype_int c = Ok y -> fits_int64 y = true.
Proof.
  destruct c as [f|z|s]; simpl.
  - destruct (PrimFloat.is_finite f); [|discriminate].
    intros E. inversion E; subst y. unfold float_to_int64.
    destruct (fits_int64 (trunc_float f)) eqn:Ef; [exact Ef | reflexivity].
  - intros E. inversion E; subst y. apply wrap_int64_fits.
  - destruct (py_int s) as [z|]; [|discriminate].
    destruct (fits_int64 z) eqn:Ez; [|discriminate].
    intros E. inversion E; subst y. exact Ez.
Qed.

(** X10.  What a loaded table can be relied on for: every row has a
    publisher, and every year is an integer of the int64 range (the integer
    cells of the file being int64, as [read_csv] makes them). *)
Theorem loaded_rows_have_publisher_and_int64_year csv df :
  (forall r z, In r csv -> Year r = YInt z -> fits_int64 z = true) ->
  load_data csv = Ok df ->
  forall c, In c df ->
    (exists p, Publisher c = Some p) /\ int64_min <= Year c <= int64_max.
Proof.
  unfold load_data. intros Hint E c Hc. apply astype_int_column_Ok in E.
  destruct (Forall2_In_r _ _ _ _ E Hc) as [r [Hr [Hy Hceq]]].
  apply dropna_In in Hr. destruct Hr as [Hin [_ Hp]]. split.
  - rewrite Hceq. simpl. destruct (Publisher r) as [p|]; [eauto | discriminate].
  - apply fits_int64_bounds. apply (astype_int_fits (Year r)). exact Hy.
Qed.

Lemma astype_int_column_as_raw df :
  (forall c, In c df -> fits_int64 (Year c) = true) ->
  astype_int_column (map as_raw df) = Ok df.
Proof.
  induction df as [|c df IH]; simpl; intros Hy; [reflexivity|].
  rewrite IH by (intros c' Hc'; apply Hy; right; exact Hc').
  rewrite (wrap_int64_id _ (Hy c (or_introl eq_refl))).
  simpl. destruct c. reflexivity.
Qed.

(** X11.  Cleaning is idempotent: a loaded table, read back as a file with
    integer years, loads as itself. *)
Theorem load_data_idempotent csv df :
  load_data csv = Ok df -> load_data (map as_raw df) = Ok df.
Proof.
  intros E. unfold load_data at 1.
  replace (dropna (map as_raw df)) with (map as_raw df).
  - apply astype_int_column_as_raw.
    unfold load_data in E. apply astype_int_column_Ok in E.
    intros c Hc. destruct (Forall2_In_r _ _ _ _ E Hc) as [r [_ [Hy _]]].
    apply (astype_int_fits (Year r)). exact Hy.
  - unfold load_data in E. apply astype_int_column_Ok in E.
    assert (Hp : forall c, In c df -> isna (Publisher c) = false).
    { intros c Hc. destruct (Forall2_In_r _ _ _ _ E Hc) as [r [Hr [_ Hceq]]].
      apply dropna_In in Hr. rewrite Hceq. simpl. tauto. }
    clear E. unfold dropna. induction df as [|c df IH]; simpl; [reflexivity|].
    rewrite (Hp c (or_introl eq_refl)). simpl. f_equal.
    apply IH. intros c' Hc'. apply Hp. right. exact Hc'.
Qed.
End MoreLoadingFacts.

(** ** The cache *)

Section CacheFacts.
Context {V : Type}.
Implicit Types (cache : @Cache V) (df : Table V) (url : string).

Lemma cache_data_after (f : string -> Result (Table V)) cache url cache' df :
  cache_data f cache url = (cache', Ok df) -> cached cache' url = Some df.
Proof.
  unfold cache_data. destruct (cached cache url) as [d|] eqn:Ec.
  - intros E. inversion E; subst. exact Ec.
  - destruct (f url) as [d|e]; intros E; inversion E; subst.
    simpl. rewrite String.eqb_refl. reflexivity.
Qed.

(** X12.  The data is loaded once: after a run on a table, every later run
    for the same address is on that same table and leaves the cache as it
    is, whatever the address would deliver by then, a changed file or an
    error. *)
Theorem loaded_once (read_csv : string -> Result (RawTable V)) cache url cache' df :
  cached_load read_csv cache url = (cache', Running df) ->
  forall read_csv' : string -> Result (RawTable V),
    cached_load read_csv' cache' url = (cache', Running df).
Proof.
  unfold cached_load. intros E read_csv'.
  destruct (cache_data (load_data_url read_csv) cache url) as [c [d|e]] eqn:Ed;
    inversion E; subst.
  apply cache_data_after in Ed. unfold cache_data. rewrite Ed. reflexivity.
Qed.

(** X13.  A failed load is not kept: when a run stops on an error the cache
    is unchanged and holds nothing for the address, so the next run reads
    and cleans the file again, and runs on what it then gets. *)
Theorem failed_load_is_retried (read_csv : string -> Result (RawTable V))
  cache url cache' e :
  cached_load read_csv cache url = (cache', Stopped e) ->
  cache' = cache
  /\ cached cache url = None
  /\ load_data_url read_csv url = Raise e
  /\ forall read_csv' : string -> Result (RawTable V),
       cached_load read_csv' cache' url =
       match load_data_url read_csv' url with
       | Ok df => ((url, df) :: cache, Running df)
       | Raise e' => (cache, Stopped e')
       end.
Proof.
  unfold cached_load, cache_data. intros E.
  destruct (cached cache url) as [d|] eqn:Ec; [inversion E|].
  destruct (load_data_url read_csv url) as [d|e0] eqn:El; inversion E; subst.
  repeat split. intros read_csv'. rewrite Ec.
  destruct (load_data_url read_csv' url); reflexivity.
Qed.
End CacheFacts.

(** ** The sidebar options *)

Lemma cell_eqb_eq (a b : option string) : cell_eqb a b = true <-> a = b.
Proof.
  destruct a as [x|], b as [y|]; simpl; try (split; congruence).
  rewrite String.eqb_eq. split; congruence.
Qed.

Lemma existsb_cell_eqb (c : option string) (l : list (option string)) :
  existsb (cell_eqb c) l = true <-> In c l.
Proof.
  rewrite existsb_exists. split.
  - intros [x [Hin E]]. apply cell_eqb_eq in E. subst. exact Hin.
  - intros Hin. exists c. split; [exact Hin | apply cell_eqb_eq; reflexivity].
Qed.

Lemma unique_from_In (cells seen : list (option string)) c :
  In c (fold_left
          (fun seen c => if existsb (cell_eqb c) seen then seen else (seen ++ [c])%list)
          cells seen)
  <-> In c seen \/ In c cells.
Proof.
  revert seen. induction cells as [|x cells IH]; simpl; intros seen.
  - tauto.
  - rewrite IH. destruct (existsb (cell_eqb x) seen) eqn:E.
    + apply existsb_cell_eqb in E. split; [tauto|].
      intros [Hs|[Hx|Hc]]; auto. subst. auto.
    + rewrite in_app_iff. simpl. tauto.
Qed.

Lemma unique_from_NoDup (cells seen : list (option string)) :
  NoDup seen ->
  NoDup (fold_left
           (fun seen c => if existsb (cell_eqb c) seen then seen else (seen ++ [c])%list)
           cells seen).
Proof.
  revert seen. induction cells as [|x cells IH]; simpl; intros seen HN.
  - exact HN.
  - apply IH. destruct (existsb (cell_eqb x) seen) eqn:E; [exact HN|].
    apply NoDup_app; [exact HN | repeat constructor; simpl; tauto|].
    intros c Hc [Hx|[]]. subst c.
    apply existsb_cell_eqb in Hc. congruence.
Qed.

Lemma unique_In (cells : list (option string)) c : In c (unique cells) <-> In c cells.
Proof. unfold unique. rewrite unique_from_In. simpl. tauto. Qed.

Lemma unique_NoDup (cells : list (option string)) : NoDup (unique cells).
Proof. apply unique_from_NoDup. constructor. Qed.

Lemma texts_Some (cells : list (option string)) (ts : list string) :
  texts cells = Some ts <-> cells = map Some ts.
Proof.
  revert ts. induction cells as [|[s|] cells IH]; simpl; intros ts.
  - split.
    + intros E. inversion E. reflexivity.
    + destruct ts; [reflexivity | discriminate].
  - destruct (texts cells) as [ts'|]; simpl.
    + split.
      * intros E. inversion E; subst. simpl. f_equal. apply IH. reflexivity.
      * destruct ts as [|t ts]; [discriminate|]. simpl. intros E.
        inversion E; subst. f_equal. f_equal.
        assert (E' : Some ts' = Some ts) by (apply IH; reflexivity).
        inversion E'. reflexivity.
    + split; [discriminate|].
      destruct ts as [|t ts]; [discriminate|]. simpl. intros E.
      inversion E; subst.
      assert (E' : @None (list string) = Some ts) by (apply IH; reflexivity).
      discriminate.
  - split; [discriminate|]. destruct ts; discriminate.
Qed.

Lemma texts_None (cells : list (option string)) :
  texts cells = None <-> In None cells.
Proof.
  induction cells as [|[s|] cells IH]; simpl.
  - split; [discriminate | tauto].
  - destruct (texts cells); simpl.
    + split; [discriminate|]. intros [E|Hin]; [discriminate|].
      apply IH in Hin. discriminate.
    + split; [intros _; right; apply IH; reflexivity | reflexivity].
  - split; [auto | reflexivity].
Qed.

Lemma insert_text_Permutation (x : string) (l : list string) :
  Permutation (insert_text x l) (x :: l).
Proof.
  induction l as [|y l IH]; simpl; [apply Permutation_refl|].
  destruct (String.compare x y); try apply Permutation_refl.
  eapply Permutation_trans; [apply perm_skip; exact IH | apply perm_swap].
Qed.

Lemma sort_texts_Permutation (l : list string) : Permutation (sort_texts l) l.
Proof.
  induction l as [|x l IH]; simpl; [apply Permutation_refl|].
  eapply Permutation_trans; [apply insert_text_Permutation|].
  apply perm_skip. exact IH.
Qed.

Lemma insert_text_sorted (x : string) (l : list string) :
  ~ In x l ->
  StronglySorted (fun a b => String.compare a b = Lt) l ->
  StronglySorted (fun a b => String.compare a b = Lt) (insert_text x l).
Proof.
  intros Hx HS. induction HS as [|y l HS IH HF]; simpl.
  - constructor; constructor.
  - destruct (String.compare x y) eqn:E.
    + apply String.compare_eq_iff in E. subst y. exfalso. apply Hx. left. reflexivity.
    + constructor; [constructor; assumption|].
      constructor; [exact E|].
      eapply Forall_impl; [|exact HF]. intros z Hz.
      eapply string_compare_trans; eassumption.
    + constructor.
      * apply IH. intros Hin. apply Hx. right. exact Hin.
      * eapply Permutation_Forall;
          [apply Permutation_sym, insert_text_Permutation|].
        constructor; [|exact HF].
        rewrite String.compare_antisym, E. reflexivity.
Qed.

Lemma sort_texts_sorted (l : list string) :
  NoDup l -> StronglySorted (fun a b => String.compare a b = Lt) (sort_texts l).
Proof.
  induction 1 as [|x l Hx HN IH]; simpl; [constructor|].
  apply insert_text_sorted; [|exact IH].
  intros Hin. apply Hx.
  eapply Permutation_in; [apply sort_texts_Permutation | exact Hin].
Qed.

(** Two strictly ascending lists of keys with the same members are equal. *)
Lemma strictly_sorted_ext {K : Type} (cmp : K -> K -> comparison)
  `{!KeyOrder cmp} (l l' : list K) :
  StronglySorted (fun a b => cmp a b = Lt) l ->
  StronglySorted (fun a b => cmp a b = Lt) l' ->
  (forall x, In x l <-> In x l') -> l = l'.
Proof.
  intros HS. revert l'.
  induction HS as [|x l HS IH HF]; intros l' HS' Hext.
  - destruct l' as [|y l']; [reflexivity|].
    exfalso. apply (Hext y). left. reflexivity.
  - destruct HS' as [|y l' HS' HF'].
    + exfalso. apply (Hext x). left. reflexivity.
    + rewrite Forall_forall in HF, HF'.
      assert (Exy : x = y).
      { destruct (proj1 (Hext x) (or_introl eq_refl)) as [E|Hx]; [auto|].
        destruct (proj2 (Hext y) (or_introl eq_refl)) as [E|Hy]; [auto|].
        apply HF in Hy. apply HF' in Hx.
        pose proof (cmp_trans _ _ _ Hx Hy) as L.
        rewrite (cmp_refl cmp) in L. discriminate. }
      subst y. f_equal. apply IH; [exact HS'|].
      intros z. split; intros Hz.
      * destruct (proj1 (Hext z) (or_intror Hz)) as [E|Hz']; [|exact Hz'].
        subst z. apply HF in Hz. rewrite (cmp_refl cmp) in Hz. discriminate.
      * destruct (proj2 (Hext z) (or_intror Hz)) as [E|Hz']; [|exact Hz'].
        subst z. apply HF' in Hz. rewrite (cmp_refl cmp) in Hz. discriminate.
Qed.

Lemma map_Some_NoDup (ts : list string) : NoDup (map Some ts) -> NoDup ts.
Proof.
  induction ts as [|t ts IH]; simpl; intros HN; [constructor|].
  inversion HN as [|? ? Hx HN']; subst. constructor; [|apply IH; exact HN'].
  intros Hin. apply Hx. apply in_map. exact Hin.
Qed.

Lemma py_sorted_texts (cells : list (option string)) (gs : list string) :
  py_sorted cells = SortedList (map Some gs) ->
  exists ts, cells = map Some ts /\ gs = sort_texts ts.
Proof.
  unfold py_sorted. destruct (texts cells) as [ts|] eqn:Et.
  - intros E. inversion E as [E']. exists ts. split; [apply texts_Some; exact Et|].
    clear - E'. revert E'. generalize (sort_texts ts). intros l. revert gs.
    induction l as [|x l IH]; intros [|g gs] E; try discriminate; [reflexivity|].
    inversion E; subst. f_equal. apply IH. assumption.
  - destruct (forallb isna cells); [|discriminate].
    intros E. inversion E as [E']. apply texts_None in Et.
    rewrite E' in Et. apply in_map_iff in Et. destruct Et as [x [Ex _]]. discriminate.
Qed.

Lemma forallb_false {A : Type} (p : A -> bool) (l : list A) :
  forallb p l = false <-> exists x, In x l /\ p x = false.
Proof.
  induction l as [|a l IH]; simpl.
  - split; [discriminate | intros [x [[] _]]].
  - rewrite andb_false_iff, IH. split.
    + intros [E|[x [Hin E]]]; [exists a; auto | exists x; auto].
    + intros [x [[->|Hin] E]]; [left; exact E | right; exists x; auto].
Qed.

Lemma py_sorted_TypeError (cells : list (option string)) :
  py_sorted cells = TypeError <->
  In None cells /\ exists s, In (Some s) cells.
Proof.
  unfold py_sorted. destruct (texts cells) as [ts|] eqn:Et.
  - split; [discriminate|]. intros [Hn _]. apply texts_None in Hn. congruence.
  - apply texts_None in Et. destruct (forallb isna cells) eqn:Ef.
    + split; [discriminate|]. intros [_ [s Hs]].
      rewrite forallb_forall in Ef. apply Ef in Hs. discriminate.
    + split; [|reflexivity]. intros _. split; [exact Et|].
      apply forallb_false in Ef. destruct Ef as [[s|] [Hin E]]; [|discriminate].
      exists s. exact Hin.
Qed.

Section SidebarFacts.
Context {V : Type} `{Number V}.
Implicit Types (df : Table V) (C : Criteria) (r : Row Z V).

Lemma column_In (key : Row Z V -> option string) df c :
  In c (unique (map key df)) <-> exists r, In r df /\ key r = c.
Proof.
  rewrite unique_In, in_map_iff. split; intros [r [A B]]; exists r; auto.
Qed.

Lemma options_of_present (key : Row Z V -> option string) df :
  (forall r, In r df -> key r <> None) ->
  exists gs,
    py_sorted (unique (map key df)) = SortedList (map Some gs)
    /\ StronglySorted (fun a b => String.compare a b = Lt) gs
    /\ (forall g, In g gs <-> exists r, In r df /\ key r = Some g)
    /\ gs = map fst (groupby_sum String.compare key df).
Proof.
  intros Hkey.
  destruct (texts (unique (map key df))) as [ts|] eqn:Et.
  - pose proof (proj1 (texts_Some _ _) Et) as Ec.
    assert (HN : NoDup ts).
    { apply map_Some_NoDup. rewrite <- Ec. apply unique_NoDup. }
    assert (HS : StronglySorted (fun a b => String.compare a b = Lt) (sort_texts ts))
      by (apply sort_texts_sorted; exact HN).
    assert (HIn : forall g, In g (sort_texts ts) <-> exists r, In r df /\ key r = Some g).
    { intros g. rewrite <- column_In, Ec. split.
      - intros Hg. apply in_map.
        eapply Permutation_in; [apply sort_texts_Permutation | exact Hg].
      - intros Hg. apply in_map_iff in Hg. destruct Hg as [x [Ex Hx]].
        inversion Ex; subst x.
        eapply Permutation_in; [apply Permutation_sym, sort_texts_Permutation | exact Hx]. }
    exists (sort_texts ts). split; [unfold py_sorted; rewrite Et; reflexivity|].
    split; [exact HS|]. split; [exact HIn|].
    apply (strictly_sorted_ext String.compare); [exact HS| |].
    + apply key_sorted_keys, groupby_sum_sorted. typeclasses eauto.
    + intros g. rewrite HIn. symmetry. apply groupby_sum_key. typeclasses eauto.
  - apply texts_None, column_In in Et. destruct Et as [r [Hin E]].
    exfalso. exact (Hkey r Hin E).
Qed.

(** X14.  When no row lacks a genre, the genre options are the genres that
    occur in the table, each once, in ascending order; they are the keys of
    the sums by genre of the whole table.  Likewise for the platforms. *)
Theorem options_are_the_values_present df :
  (forall r, In r df -> Genre r <> None) ->
  (forall r, In r df -> Platform r <> None) ->
  (exists gs,
     genres df = SortedList (map Some gs)
     /\ StronglySorted (fun a b => String.compare a b = Lt) gs
     /\ (forall g, In g gs <-> exists r, In r df /\ Genre r = Some g)
     /\ gs = map fst (groupby_sum String.compare Genre df))
  /\ (exists ps,
        platforms df = SortedList (map Some ps)
        /\ StronglySorted (fun a b => String.compare a b = Lt) ps
        /\ (forall p, In p ps <-> exists r, In r df /\ Platform r = Some p)
        /\ ps = map fst (groupby_sum String.compare Platform df)).
Proof.
  intros Hg Hp. split; apply options_of_present; assumption.
Qed.

(** X15.  Sorting the genre options raises [TypeError] exactly when some row
    lacks a genre and some row has one (a text is compared with NaN); so a
    row that [load_data] keeps with its genre missing makes the script fail
    here, outside the [try].  Likewise for the platforms. *)
Theorem options_raise_on_missing_value df :
  (genres df = TypeError <->
     (exists r, In r df /\ Genre r = None)
     /\ (exists r g, In r df /\ Genre r = Some g))
  /\ (platforms df = TypeError <->
        (exists r, In r df /\ Platform r = None)
        /\ (exists r p, In r df /\ Platform r = Some p)).
Proof.
  unfold genres, platforms. rewrite !py_sorted_TypeError. split.
  - rewrite column_In. split.
    + intros [Hn [s Hs]]. apply column_In in Hs. split; [exact Hn|].
      destruct Hs as [r Hr]. exists r, s. exact Hr.
    + intros [Hn [r [g Hr]]]. split; [exact Hn|].
      exists g. apply column_In. exists r. exact Hr.
  - rewrite column_In. split.
    + intros [Hn [s Hs]]. apply column_In in Hs. split; [exact Hn|].
      destruct Hs as [r Hr]. exists r, s. exact Hr.
    + intros [Hn [r [g Hr]]]. split; [exact Hn|].
      exists g. apply column_In. exists r. exact Hr.
Qed.

Lemma fold_min_spec (ys : list Z) (y : Z) :
  fold_left Z.min ys y <= y
  /\ (forall z, In z ys -> fold_left Z.min ys y <= z)
  /\ In (fold_left Z.min ys y) (y :: ys).
Proof.
  revert y. induction ys as [|x ys IH]; simpl; intros y.
  - split; [lia|]. split; [tauto | auto].
  - destruct (IH (Z.min y x)) as [A [B C]]. split; [lia|]. split.
    + intros z [->|Hz]; [lia | apply B, Hz].
    + destruct C as [C|C]; [|auto].
      rewrite <- C. destruct (Z.min_spec y x) as [[_ E]|[_ E]]; rewrite E; auto.
Qed.

Lemma fold_max_spec (ys : list Z) (y : Z) :
  y <= fold_left Z.max ys y
  /\ (forall z, In z ys -> z <= fold_left Z.max ys y)
  /\ In (fold_left Z.max ys y) (y :: ys).
Proof.
  revert y. induction ys as [|x ys IH]; simpl; intros y.
  - split; [lia|]. split; [tauto | auto].
  - destruct (IH (Z.max y x)) as [A [B C]]. split; [lia|]. split.
    + intros z [->|Hz]; [lia | apply B, Hz].
    + destruct C as [C|C]; [|auto].
      rewrite <- C. destruct (Z.max_spec y x) as [[_ E]|[_ E]]; rewrite E; auto.
Qed.

Lemma year_bounds df :
  (forall lo, min_year df = Some lo -> forall r, In r df -> lo <= Year r)
  /\ (forall hi, max_year df = Some hi -> forall r, In r df -> Year r <= hi).
Proof.
  unfold min_year, max_year. destruct df as [|r0 df]; simpl.
  - split; discriminate.
  - split.
    + intros lo E. inversion E as [E']. clear E.
      destruct (fold_min_spec (map Year df) (Year r0)) as [A [B _]].
      intros r [->|Hr]; [exact A | apply B, in_map, Hr].
    + intros hi E. inversion E as [E']. clear E.
      destruct (fold_max_spec (map Year df) (Year r0)) as [A [B _]].
      intros r [->|Hr]; [exact A | apply B, in_map, Hr].
Qed.

(** X16.  The ends of the year slider: none for an empty table; otherwise
    the least and the greatest year of the table, each the year of some row,
    with every row's year between them. *)
Theorem slider_ends_are_the_extreme_years df :
  (min_year df = None <-> df = [])
  /\ (max_year df = None <-> df = [])
  /\ (forall lo, min_year df = Some lo ->
        (exists r, In r df /\ Year r = lo)
        /\ forall r, In r df -> lo <= Year r)
  /\ (forall hi, max_year df = Some hi ->
        (exists r, In r df /\ Year r = hi)
        /\ forall r, In r df -> Year r <= hi).
Proof.
  unfold min_year, max_year. destruct df as [|r0 df]; simpl.
  - repeat split; try discriminate.
  - split; [split; discriminate|]. split; [split; discriminate|]. split.
    + intros lo E. inversion E as [E']. clear E.
      destruct (fold_min_spec (map Year df) (Year r0)) as [A [B C]]. split.
      * destruct C as [C|C].
        -- exists r0. auto.
        -- apply in_map_iff in C. destruct C as [r [Er Hr]]. exists r. auto.
      * intros r [->|Hr]; [exact A | apply B, in_map, Hr].
    + intros hi E. inversion E as [E']. clear E.
      destruct (fold_max_spec (map Year df) (Year r0)) as [A [B C]]. split.
      * destruct C as [C|C].
        -- exists r0. auto.
        -- apply in_map_iff in C. destruct C as [r [Er Hr]]. exists r. auto.
      * intros r [->|Hr]; [exact A | apply B, in_map, Hr].
Qed.

(** X17.  The selection the widgets start from: with every genre option
    selected and the year range at the two ends of the slider, the genre and
    the year restrict nothing, and the view is the rows of the table on the
    selected platforms; with the preselected platforms, the rows on PS2,
    X360, PS3, Wii and DS. *)
Theorem all_genres_full_range_selects_by_platform df gs lo hi :
  genres df = SortedList (map Some gs) ->
  min_year df = Some lo -> max_year df = Some hi ->
  (forall ps, filtered_df df (mkCriteria gs ps (lo, hi))
              = filter (fun r => isin (Platform r) ps) df)
  /\ (forall r, In r (filtered_df df (mkCriteria gs default_platforms (lo, hi))) <->
        In r df
        /\ exists p, Platform r = Some p
             /\ In p ["PS2"; "X360"; "PS3"; "Wii"; "DS"]).
Proof.
  intros Eg Elo Ehi.
  destruct (year_bounds df) as [Hmin Hmax].
  pose proof (Hmin lo Elo) as Hlo. pose proof (Hmax hi Ehi) as Hhi.
  unfold genres in Eg. apply py_sorted_texts in Eg.
  destruct Eg as [ts [Ec Egs]].
  assert (E : forall ps, filtered_df df (mkCriteria gs ps (lo, hi))
                         = filter (fun r => isin (Platform r) ps) df).
  { intros ps. unfold filtered_df. apply filter_ext_in. intros r Hin.
    unfold mask. simpl.
    assert (Hg : isin (Genre r) gs = true).
    { assert (Hc : In (Genre r) (unique (map Genre df)))
        by (apply column_In; exists r; auto).
      rewrite Ec in Hc. apply in_map_iff in Hc. destruct Hc as [g [Eg Hg]].
      apply isin_true. exists g. split; [auto|]. subst gs.
      eapply Permutation_in; [apply Permutation_sym, sort_texts_Permutation | exact Hg]. }
    rewrite Hg. simpl.
    rewrite (proj2 (Z.leb_le lo (Year r)) (Hlo r Hin)).
    rewrite (proj2 (Z.leb_le (Year r) hi) (Hhi r Hin)).
    rewrite !andb_true_r. reflexivity. }
  split; [exact E|].
  intros r. rewrite E, filter_In, isin_true. reflexivity.
Qed.
End SidebarFacts.

(** ** The count metric and text years *)

Lemma digits_cons (a k : Z) (c : ascii) (r : list ascii) :
  digit_of c = Some k -> digits a (c :: r) = digits (10 * a + k) r.
Proof. intros E. cbn [digits]. rewrite E. reflexivity. Qed.

Lemma digits_chars (d : Decimal.uint) (acc : nat) :
  digits (Z.of_nat acc) (list_ascii_of_string (NilEmpty.string_of_uint d))
  = Some (Z.of_nat (Nat.of_uint_acc d acc)).
Proof.
  revert acc. induction d as [|d IH|d IH|d IH|d IH|d IH|d IH|d IH|d IH|d IH|d IH];
    intros acc;
    cbn [NilEmpty.string_of_uint list_ascii_of_string Nat.of_uint_acc];
    [reflexivity|..];
    erewrite digits_cons by reflexivity;
    rewrite <- IH; f_equal; rewrite Nat.tail_mul_spec;
    try match goal with
        | |- context [Z.of_N ?x] =>
            let v := eval vm_compute in (Z.of_N x) in change (Z.of_N x) with v
        end;
    lia.
Qed.

Lemma chars_are_digits (d : Decimal.uint) :
  Forall (fun c => is_digit c = true)
    (list_ascii_of_string (NilEmpty.string_of_uint d)).
Proof.
  induction d; simpl; constructor; try reflexivity; assumption.
Qed.

Lemma to_uint_not_Nil (n : nat) : Nat.to_uint n <> Decimal.Nil.
Proof.
  intros E. pose proof (DecimalNat.Unsigned.of_to n) as O. rewrite E in O.
  simpl in O. subst n. discriminate.
Qed.

Lemma digit_not_space (c : ascii) : is_digit c = true -> is_space c = false.
Proof.
  unfold is_digit, digit_of, is_space.
  destruct ((48 <=? N_of_ascii c)%N && (N_of_ascii c <=? 57)%N) eqn:E; [|discriminate].
  intros _. apply andb_true_iff in E. destruct E as [A B].
  apply N.leb_le in A, B.
  apply orb_false_iff. split; apply andb_false_iff.
  - right. apply N.leb_gt. lia.
  - right. apply N.leb_gt. lia.
Qed.

Lemma lstrip_digits (l : list ascii) :
  Forall (fun c => is_digit c = true) l -> lstrip l = l.
Proof.
  destruct 1 as [|c l Hc _]; simpl; [reflexivity|].
  rewrite (digit_not_space c Hc). reflexivity.
Qed.

Lemma strip_digits (l : list ascii) :
  Forall (fun c => is_digit c = true) l -> strip l = l.
Proof.
  intros HF. unfold strip. rewrite (lstrip_digits l HF).
  rewrite lstrip_digits; [apply rev_involutive | apply Forall_rev; exact HF].
Qed.

Lemma py_int_digits (l : list ascii) :
  Forall (fun c => is_digit c = true) l -> l <> [] ->
  py_int (string_of_list_ascii l) = digits 0 l.
Proof.
  intros HF Hne. unfold py_int.
  rewrite list_ascii_of_string_of_list_ascii, (strip_digits l HF).
  destruct l as [|c r]; [congruence|].
  inversion HF as [|? ? Hc _]; subst.
  destruct c as [[] [] [] [] [] [] [] []];
    try (vm_compute in Hc; discriminate Hc); reflexivity.
Qed.

Lemma py_int_decimal (n : nat) :
  py_int (string_of_list_ascii (decimal n)) = Some (Z.of_nat n).
Proof.
  unfold decimal. rewrite py_int_digits.
  - etransitivity; [exact (digits_chars (Nat.to_uint n) 0)|].
    change (Nat.of_uint_acc (Nat.to_uint n) 0) with (Nat.of_uint (Nat.to_uint n)).
    rewrite DecimalNat.Unsigned.of_to. reflexivity.
  - apply chars_are_digits.
  - pose proof (to_uint_not_Nil n) as Hn.
    destruct (Nat.to_uint n); [congruence|..]; discriminate.
Qed.

Lemma by_threes (P : list ascii -> Prop) :
  P [] -> (forall a, P [a]) -> (forall a b, P [a; b]) -> (forall a b c, P [a; b; c]) ->
  (forall a b c d rest, P (d :: rest) -> P (a :: b :: c :: d :: rest)) ->
  forall l, P l.
Proof.
  intros H0 H1 H2 H3 H4.
  assert (G : forall n l, (List.length l <= n)%nat -> P l).
  { induction n as [|n IH]; intros l Hl.
    - destruct l; [exact H0 | simpl in Hl; lia].
    - destruct l as [|a [|b [|c [|d rest]]]]; auto.
      apply H4. apply IH. simpl in *. lia. }
  intros l. apply (G (List.length l)). lia.
Qed.

Lemma group3_without_commas (l : list ascii) :
  filter not_comma (group3 l) = filter not_comma l.
Proof.
  induction l as [| | | |a b c d rest IH] using by_threes; try reflexivity.
  change (group3 (a :: b :: c :: d :: rest))
    with (a :: b :: c :: ","%char :: group3 (d :: rest)).
  change (a :: b :: c :: ","%char :: group3 (d :: rest))
    with (([a; b; c] ++ ","%char :: group3 (d :: rest))%list).
  change (a :: b :: c :: d :: rest) with (([a; b; c] ++ d :: rest)%list).
  rewrite !filter_app. f_equal.
  change (filter not_comma (","%char :: group3 (d :: rest)))
    with (filter not_comma (group3 (d :: rest))).
  exact IH.
Qed.

Lemma group3_length (l : list ascii) :
  List.length (group3 l) = (List.length l + (List.length l - 1) / 3)%nat.
Proof.
  induction l as [| | | |a b c d rest IH] using by_threes; try reflexivity.
  change (group3 (a :: b :: c :: d :: rest))
    with (a :: b :: c :: ","%char :: group3 (d :: rest)).
  simpl List.length in *. rewrite IH.
  replace (S (S (S (S (List.length rest)))) - 1)%nat
    with (List.length rest + 1 * 3)%nat by lia.
  rewrite Nat.div_add by lia.
  replace (S (List.length rest) - 1)%nat with (List.length rest) by lia. lia.
Qed.

Lemma digit_not_comma (c : ascii) : is_digit c = true -> not_comma c = true.
Proof.
  unfold not_comma. destruct (Ascii.eqb_spec c ","%char) as [->|]; [discriminate | reflexivity].
Qed.

Lemma filter_all {A : Type} (p : A -> bool) (l : list A) :
  Forall (fun x => p x = true) l -> filter p l = l.
Proof.
  induction 1 as [|x l Hx _ IH]; simpl; [reflexivity|].
  rewrite Hx, IH. reflexivity.
Qed.

(** X18.  The count is shown as its decimal digits with commas: without the
    commas the text is the decimal numeral of the count, and reads back as
    the count; with [d] digits the text has [d + (d - 1) / 3] characters. *)
Theorem format_count_reads_back (n : nat) :
  filter not_comma (list_ascii_of_string (format_count n)) = decimal n
  /\ py_int (string_of_list_ascii
               (filter not_comma (list_ascii_of_string (format_count n))))
     = Some (Z.of_nat n)
  /\ String.length (format_count n)
     = (List.length (decimal n) + (List.length (decimal n) - 1) / 3)%nat.
Proof.
  assert (E : filter not_comma (list_ascii_of_string (format_count n)) = decimal n).
  { unfold format_count. rewrite list_ascii_of_string_of_list_ascii.
    rewrite filter_rev, group3_without_commas, <- filter_rev, rev_involutive.
    apply filter_all. eapply Forall_impl; [apply digit_not_comma|].
    apply chars_are_digits. }
  split; [exact E|]. split; [rewrite E; apply py_int_decimal|].
  unfold format_count.
  rewrite <- (list_ascii_of_string_of_list_ascii (rev (group3 (rev (decimal n))))) at 1.
  rewrite string_of_list_ascii_of_string.
  assert (L : forall s, String.length s = List.length (list_ascii_of_string s)).
  { induction s; simpl; congruence. }
  rewrite L, list_ascii_of_string_of_list_ascii.
  rewrite length_rev, group3_length, length_rev. reflexivity.
Qed.

(** X19.  A year written as text converts to itself: a text cell holding
    the decimal numeral of a number of the int64 range converts to that
    number. *)
Theorem text_year_converts (n : nat) :
  Z.of_nat n <= int64_max ->
  astype_int (YStr (string_of_list_ascii (decimal n))) = Ok (Z.of_nat n).
Proof.
  intros Hn. simpl. rewrite py_int_decimal.
  assert (F : fits_int64 (Z.of_nat n) = true).
  { apply fits_int64_bounds. split; [|exact Hn].
    unfold int64_min. lia. }
  rewrite F. reflexivity.
Qed.

(** ** The properties above, on the example tables *)

(** Narrowing the example selection to the shooters on X360. *)
Lemma narrower_selection_smaller_view_witness :
  filtered_df (filtered_df exact_df exact_criteria) shooters_only
    = filtered_df exact_df shooters_only
  /\ Subsequence (filtered_df exact_df shooters_only)
       (filtered_df exact_df exact_criteria)
  /\ (num_games (filtered_df exact_df shooters_only)
      <= num_games (filtered_df exact_df exact_criteria))%nat.
Proof.
  apply (narrower_selection_smaller_view exact_df shooters_only exact_criteria).
  - intros g Hg. simpl in *. intuition.
  - intros p Hp. simpl in *. intuition.
  - simpl. lia.
  - simpl. lia.
Defined.

(** The example selection with its genres in another order, one twice. *)
Lemma selection_is_a_set_witness :
  filtered_df exact_df listed_twice = filtered_df exact_df exact_criteria.
Proof.
  apply (selection_is_a_set exact_df listed_twice exact_criteria).
  - intros g. simpl. intuition.
  - intros p. simpl. intuition.
  - reflexivity.
Defined.

(** The range from 2007 down to 2004. *)
Lemma inverted_year_range_keeps_nothing_witness :
  snd (selected_year_range upside_down) < fst (selected_year_range upside_down)
  /\ filtered_df exact_df upside_down = [].
Proof.
  split; [simpl; lia|].
  apply (inverted_year_range_keeps_nothing exact_df upside_down). simpl. lia.
Defined.


Lemma charts_within_selection_witness :
  Permutes (stable_sort (V:=Z) (K:=string))
  /\ (List.length (sales_by_genre stable_sort (filtered_df exact_df exact_criteria))
      <= List.length (selected_genres exact_criteria))%nat.
Proof.
  split; [apply stable_sort_Permutes|].
  apply (charts_within_selection stable_sort exact_df exact_criteria
           stable_sort_Permutes).
Defined.

(** The example table has a row without sales. *)
Lemma missing_sales_add_nothing_witness :
  total_sales (filtered_df exact_df exact_criteria)
    = total_sales (filter (fun r => negb (isna (Global_Sales r)))
                     (filtered_df exact_df exact_criteria))
  /\ num_games (filter (fun r => isna (Global_Sales r))
                  (filtered_df exact_df exact_criteria)) = 1%nat.
Proof.
  split; [|reflexivity].
  apply (missing_sales_add_nothing (filtered_df exact_df exact_criteria)).
Defined.

Lemma appended_tables_add_up_witness :
  total_sales (filtered_df (exact_df ++ tied_df)%list exact_criteria)
  = num_add (total_sales (filtered_df exact_df exact_criteria))
      (total_sales (filtered_df tied_df exact_criteria)).
Proof.
  apply (appended_tables_add_up exact_df tied_df exact_criteria).
Defined.

(** The file with missing cells, loaded. *)
Lemma loaded_rows_have_publisher_and_int64_year_witness :
  load_data csv_missing_cells = Ok loaded_missing_cells
  /\ (exists p, Publisher (mkRow None None 2006 None (Some "Nintendo") (@None float))
                = Some p)
  /\ int64_min <= 2006 <= int64_max.
Proof.
  split; [reflexivity|].
  apply (loaded_rows_have_publisher_and_int64_year csv_missing_cells
           loaded_missing_cells).
  - intros r z Hin E. simpl in Hin.
    destruct Hin as [<-|[<-|[<-|[]]]]; discriminate E.
  - reflexivity.
  - left. reflexivity.
Defined.

Lemma load_data_idempotent_witness :
  load_data csv_missing_cells = Ok loaded_missing_cells
  /\ load_data (map as_raw loaded_missing_cells) = Ok loaded_missing_cells.
Proof.
  split; [reflexivity|].
  apply (load_data_idempotent csv_missing_cells loaded_missing_cells).
  reflexivity.
Defined.

(** A first run on the file with missing cells, then a run when the address
    delivers a file that does not load. *)
Lemma loaded_once_witness :
  cached_load delivers_missing_cells [] "vgsales.csv"
    = ([("vgsales.csv", loaded_missing_cells)], Running loaded_missing_cells)
  /\ cached_load delivers_bad_year [("vgsales.csv", loaded_missing_cells)]
       "vgsales.csv"
     = ([("vgsales.csv", loaded_missing_cells)], Running loaded_missing_cells).
Proof.
  split; [reflexivity|].
  apply (loaded_once delivers_missing_cells [] "vgsales.csv"
           [("vgsales.csv", loaded_missing_cells)] loaded_missing_cells eq_refl).
Defined.

(** A first run that fails, then a run when the address delivers a file
    that loads. *)
Lemma failed_load_is_retried_witness :
  cached_load delivers_bad_year [] "vgsales.csv" = ([], Stopped ValueError)
  /\ cached_load delivers_missing_cells [] "vgsales.csv"
     = ([("vgsales.csv", loaded_missing_cells)], Running loaded_missing_cells).
Proof.
  split; [reflexivity|].
  apply (proj2 (proj2 (proj2
           (failed_load_is_retried delivers_bad_year [] "vgsales.csv" []
              ValueError eq_refl)))
           delivers_missing_cells).
Defined.

Lemma exact_df_has_genres_and_platforms :
  (forall r, In r exact_df -> Genre r <> None)
  /\ (forall r, In r exact_df -> Platform r <> None).
Proof.
  split; intros r Hin; simpl in Hin;
    repeat (destruct Hin as [<-|Hin]; [discriminate|]); contradiction.
Qed.

(** The options of the example table. *)
Lemma options_are_the_values_present_witness :
  exists gs,
    genres exact_df = SortedList (map Some gs)
    /\ StronglySorted (fun a b => String.compare a b = Lt) gs
    /\ (forall g, In g gs <-> exists r, In r exact_df /\ Genre r = Some g)
    /\ gs = map fst (groupby_sum String.compare Genre exact_df).
Proof.
  apply (options_are_the_values_present exact_df
           (proj1 exact_df_has_genres_and_platforms)
           (proj2 exact_df_has_genres_and_platforms)).
Defined.

(** The example table under the selection its widgets start from. *)
Lemma all_genres_full_range_selects_by_platform_witness :
  genres exact_df = SortedList (map Some ["Action"; "Shooter"; "Sports"])
  /\ min_year exact_df = Some 2004 /\ max_year exact_df = Some 2007
  /\ filtered_df exact_df
       (mkCriteria ["Action"; "Shooter"; "Sports"] default_platforms (2004, 2007))
     = filter (fun r => isin (Platform r) default_platforms) exact_df.
Proof.
  split; [reflexivity|]. split; [reflexivity|]. split; [reflexivity|].
  apply (proj1 (all_genres_full_range_selects_by_platform exact_df
                  ["Action"; "Shooter"; "Sports"] 2004 2007
                  eq_refl eq_refl eq_refl)).
Defined.

(** The text "2005". *)
Lemma text_year_converts_witness :
  Z.of_nat 2005 <= int64_max /\ astype_int (YStr "2005") = Ok 2005.
Proof.
  split; [vm_compute; discriminate|].
  apply (text_year_converts 2005). vm_compute. discriminate.
Defined.
